(** * RenameExtension: a shallow embedding of [RenameExtension.py]

    The development follows the layout of the script:

    - [PyStr]   : the [str] methods the script calls ([strip], [lower],
                  [startswith], [endswith], slicing), over code points
                  0..255, where [str.lower] acts character by character;
    - [normalize_ext] : the extension normaliser;
    - [OsPath]  : [os.path.normcase], [os.path.join], [os.path.dirname] for
                  the two flavours of [os.path] ([posixpath] and [ntpath]);
    - [Fs]      : an in-memory file system with [os.path.isdir],
                  [os.path.exists], [os.rename] and the bottom-up [os.walk];
    - [safe_rename], [rename_extensions] : the two procedures of the script,
                  in a state-and-exception monad over the file system;
    - [Wide]    : the string side of the script once more, over an alphabet
                  with U+0130 and U+0307, where [str.lower] does not act
                  character by character. *)

From Stdlib Require Import List Ascii String Bool Arith Lia NArith Permutation.
Import ListNotations.

Set Implicit Arguments.

Open Scope string_scope.
Open Scope list_scope.
Open Scope nat_scope.

Abbreviation length := List.length (only parsing).

(* ================================================================== *)
(** ** Python strings *)

Module PyStr.

(** A [str] is a sequence of code points; the model keeps the code points
    below 256, which [Ascii.ascii] enumerates. *)
Definition str := list ascii.

Definition lit (s : string) : str := list_ascii_of_string s.
Coercion lit : string >-> str.

Definition code (c : ascii) : N := N_of_ascii c.

(** [str.isspace] on one code point below 256: TAB..CR, FS..US, SPACE,
    NEL (0x85) and NBSP (0xA0). *)
Definition is_space (c : ascii) : bool :=
  let n := code c in
  ((9 <=? n) && (n <=? 13) || (28 <=? n) && (n <=? 32)
   || (n =? 133) || (n =? 160))%N.

(** Upper-case code points below 256: A..Z and the Latin-1 capitals
    0xC0..0xDE without the multiplication sign 0xD7. *)
Definition is_upper (c : ascii) : bool :=
  let n := code c in
  ((65 <=? n) && (n <=? 90)
   || (192 <=? n) && (n <=? 222) && negb (n =? 215))%N.

(** [str.lower] on one code point: every upper-case code point below 256
    has its lower-case partner 32 places further. *)
Definition lower_char (c : ascii) : ascii :=
  if is_upper c then ascii_of_N (code c + 32) else c.

(** [s.lower()] *)
Definition lower (s : str) : str := map lower_char s.

(** [s.lstrip()], [s.rstrip()], [s.strip()] without argument. *)
Fixpoint lstrip (s : str) : str :=
  match s with
  | c :: s' => if is_space c then lstrip s' else s
  | [] => []
  end.

Definition rstrip (s : str) : str := rev (lstrip (rev s)).

Definition strip (s : str) : str := rstrip (lstrip s).

Definition ascii_eqb (a b : ascii) : bool := Ascii.eqb a b.

Fixpoint str_eqb (a b : str) : bool :=
  match a, b with
  | [], [] => true
  | x :: a', y :: b' => ascii_eqb x y && str_eqb a' b'
  | _, _ => false
  end.

(** [s.startswith(p)] *)
Fixpoint startswith (s p : str) {struct p} : bool :=
  match p with
  | [] => true
  | y :: p' =>
      match s with
      | x :: s' => ascii_eqb x y && startswith s' p'
      | [] => false
      end
  end.

(** [s.endswith(p)] *)
Definition endswith (s p : str) : bool :=
  (length p <=? length s) && str_eqb (skipn (length s - length p) s) p.

(** [s[:-k]] for [k >= 0]: Python reads [s[:-0]] as [s[:0]], the empty
    string, and clips a [k] beyond the length to the empty string too. *)
Definition slice_to_neg (s : str) (k : nat) : str :=
  match k with
  | 0 => []
  | _ => firstn (length s - k) s
  end.

End PyStr.
Import PyStr.

(* ================================================================== *)
(** ** The extension normaliser *)

(** [normalize_ext(ext)]:
[[
    ext = ext.strip().lower()
    return ext if ext.startswith('.') else '.' + ext
]] *)
Definition normalize_ext (ext : str) : str :=
  let ext := lower (strip ext) in
  if startswith ext "." then ext else lit "." ++ ext.

(* ================================================================== *)
(** ** [os.path]: the string side of paths *)

Module OsPath.

(** Which [os.path] the interpreter loads: [posixpath] (Linux, macOS) or
    [ntpath] (Windows).  Drive letters and UNC prefixes are not modelled:
    an [ntpath] path is a sequence of components like a POSIX one. *)
Inductive flavour := Posix | Nt.

Definition slash : ascii := "/"%char.
Definition backslash : ascii := "\"%char.

Definition sep (f : flavour) : ascii :=
  match f with Posix => slash | Nt => backslash end.

Definition is_sep (f : flavour) (c : ascii) : bool :=
  match f with
  | Posix => ascii_eqb c slash
  | Nt => ascii_eqb c backslash || ascii_eqb c slash
  end.

(** [os.path.normcase]: the identity in [posixpath]; in [ntpath],
    [s.replace('/', '\\').lower()]. *)
Definition normcase (f : flavour) (s : str) : str :=
  match f with
  | Posix => s
  | Nt => lower (map (fun c => if ascii_eqb c slash then backslash else c) s)
  end.

(** [os.path.join(a, b)]: a [b] that starts with a separator replaces [a];
    an empty [a], or one that ends with a separator, takes [b] as it is;
    otherwise the flavour's separator goes in between. *)
Definition join (f : flavour) (a b : str) : str :=
  match b with
  | c :: _ => if is_sep f c then b
              else match rev a with
                   | [] => b
                   | l :: _ => if is_sep f l then a ++ b else a ++ sep f :: b
                   end
  | [] => match rev a with
          | [] => b
          | l :: _ => if is_sep f l then a ++ b else a ++ sep f :: b
          end
  end.

(** [p.rstrip(seps)] *)
Fixpoint lstrip_sep (f : flavour) (s : str) : str :=
  match s with
  | c :: s' => if is_sep f c then lstrip_sep f s' else s
  | [] => []
  end.

Definition rstrip_sep (f : flavour) (s : str) : str :=
  rev (lstrip_sep f (rev s)).

(** The part of [p] up to and including its last separator. *)
Fixpoint head_of (f : flavour) (p : str) : str :=
  match p with
  | [] => []
  | c :: p' =>
      match head_of f p' with
      | [] => if is_sep f c then [c] else []
      | h => c :: h
      end
  end.

(** [os.path.dirname(p)]: the head up to the last separator, without its
    trailing separators unless it consists of separators only. *)
Definition dirname (f : flavour) (p : str) : str :=
  let head := head_of f p in
  if forallb (is_sep f) head then head else rstrip_sep f head.

(** The components of a path, empty ones included:
    [a/b/] has the components [a], [b] and the empty string. *)
Fixpoint split_path (f : flavour) (p : str) : list str :=
  match p with
  | [] => [[]]
  | c :: p' =>
      if is_sep f c then [] :: split_path f p'
      else match split_path f p' with
           | comp :: rest => (c :: comp) :: rest
           | [] => [[c]]
           end
  end.

End OsPath.
Import OsPath.

(* ================================================================== *)
(** ** The file system *)

Module Fs.

(** The host: the flavour of [os.path], and whether the volume tells
    [File.txt] from [file.txt].  Linux is [(Posix, true)], macOS with its
    default volume [(Posix, false)], Windows [(Nt, false)]. *)
Record host := Host { flavour : OsPath.flavour; case_sensitive : bool }.

(** The file system holds directories and regular files; symbolic links
    are outside the model.

    The directories.  The script renames files only, so the directory tree
    is the same before and after every call. *)
#[local] Set Warnings "-register-all".
Inductive tree := Dir (subs : list (str * tree)).
#[local] Set Warnings "+register-all".

Definition subs_of (t : tree) : list (str * tree) :=
  match t with Dir s => s end.

(** A file: the directory that holds it (as the list of directory names
    from the top of the tree), its name there, and its content. *)
Record file := File { f_dir : list str; f_name : str; f_data : nat }.

(** The state a call works on: the directory tree, the files, the lines
    printed so far and the [os.rename] calls issued so far (oldest first). *)
Record world := World {
  dirs : tree;
  files : list file;
  stdout : list str;
  renames : list (str * str)
}.

Fixpoint path_eqb (a b : list str) : bool :=
  match a, b with
  | [], [] => true
  | x :: a', y :: b' => str_eqb x y && path_eqb a' b'
  | _, _ => false
  end.

(** *** Calls that change the state *)

(** The exceptions of the model.  [NotADirectoryError msg] is the one the
    script raises itself, with its message; [NotADirectoryErrorOS] is the
    same Python class raised by the operating system (ENOTDIR), whose text
    the system supplies. *)
Inductive exn :=
| NotADirectoryError (msg : str)
| FileNotFoundError
| FileExistsError
| IsADirectoryError
| OSError
| NotADirectoryErrorOS.

Inductive outcome (A : Type) := Ret (a : A) | Raise (e : exn).
Arguments Ret {A} a.
Arguments Raise {A} e.

Definition M (A : Type) : Type := world -> outcome A * world.

Definition ret {A} (a : A) : M A := fun w => (Ret a, w).
Definition raise {A} (e : exn) : M A := fun w => (Raise e, w).
Definition bind {A B} (m : M A) (k : A -> M B) : M B :=
  fun w =>
    match m w with
    | (Ret a, w') => k a w'
    | (Raise e, w') => (Raise e, w')
    end.

(** [print(line)] *)
Definition print (line : str) : M unit :=
  fun w => (Ret tt, World (dirs w) (files w) (stdout w ++ [line]) (renames w)).

Definition log_rename (old new : str) (w : world) : world :=
  World (dirs w) (files w) (stdout w) (renames w ++ [(old, new)]).

Definition set_files (fl : list file) (w : world) : world :=
  World (dirs w) fl (stdout w) (renames w).

Section WithHost.
Variable h : host.

(** Two names denote the same directory entry. *)
Definition name_eqb (a b : str) : bool :=
  if case_sensitive h then str_eqb a b else str_eqb (lower a) (lower b).

Definition find_sub (t : tree) (x : str) : option (str * tree) :=
  find (fun e => name_eqb (fst e) x) (subs_of t).

Fixpoint subtree (t : tree) (c : list str) : option tree :=
  match c with
  | [] => Some t
  | x :: c' =>
      match find (fun e => str_eqb (fst e) x) (subs_of t) with
      | Some (_, t') => subtree t' c'
      | None => None
      end
  end.

(** What a path leads to: a directory, or a name inside a directory (which
    a file may or may not carry). *)
Inductive target := TDir (c : list str) | TName (c : list str) (x : str).

Definition is_dot (x : str) : bool := str_eqb x [] || str_eqb x ".".
Definition is_dotdot (x : str) : bool := str_eqb x "..".

(** Path resolution from the directory [cur], component by component.  The
    working directory of the process is the top of the tree, so absolute
    and relative paths start at the same place. *)
Fixpoint resolve_from (top : tree) (cur : list str) (comps : list str)
  : option target :=
  match comps with
  | [] => Some (TDir cur)
  | x :: rest =>
      if is_dot x then resolve_from top cur rest
      else if is_dotdot x then resolve_from top (removelast cur) rest
      else
        match subtree top cur with
        | None => None
        | Some t =>
            match find_sub t x with
            | Some (d, _) => resolve_from top (cur ++ [d]) rest
            | None =>
                match rest with
                | [] => Some (TName cur x)
                | _ :: _ => None
                end
            end
        end
  end.

Definition resolve (w : world) (p : str) : option target :=
  match p with
  | [] => None
  | _ :: _ => resolve_from (dirs w) [] (split_path (flavour h) p)
  end.

Definition is_entry (c : list str) (x : str) (e : file) : bool :=
  path_eqb (f_dir e) c && name_eqb (f_name e) x.

Definition find_file (fl : list file) (c : list str) (x : str) : option file :=
  find (is_entry c x) fl.

(** [os.path.isdir(p)] *)
Definition isdir (w : world) (p : str) : bool :=
  match resolve w p with
  | Some (TDir _) => true
  | _ => false
  end.

(** [os.path.exists(p)] on a file system without symbolic links, where a
    path exists exactly when an entry is there.  (The real function follows
    links and answers [False] for a link whose target is missing.) *)
Definition exists_ (w : world) (p : str) : bool :=
  match resolve w p with
  | Some (TDir _) => true
  | Some (TName c x) =>
      match find_file (files w) c x with Some _ => true | None => false end
  | None => false
  end.

(** The names of the files of directory [c], in the order [os.scandir]
    gives them. *)
Definition listing (w : world) (c : list str) : list str :=
  map f_name (filter (fun e => path_eqb (f_dir e) c) (files w)).

(** The longest name in use, for [uuid4] below. *)
Fixpoint tree_max (t : tree) : nat :=
  match t with
  | Dir subs =>
      (fix go (l : list (str * tree)) : nat :=
         match l with
         | [] => 0
         | (n, t') :: l' => Nat.max (Nat.max (length n) (tree_max t')) (go l')
         end) subs
  end.

Definition files_max (fl : list file) : nat :=
  fold_right (fun e m => Nat.max (length (f_name e)) m) 0 fl.

(** [str(uuid.uuid4())].  The script counts on the 122 random bits for a
    name that nothing in the directory carries; the model hands out such a
    name outright: hexadecimal digits, longer than every name in use. *)
Definition uuid4 (w : world) : str :=
  repeat "f"%char (S (Nat.max (tree_max (dirs w)) (files_max (files w)))).

Definition remove_entry (c : list str) (x : str) (fl : list file) : list file :=
  filter (fun e => negb (is_entry c x e)) fl.

(** Whether the resolution of [comps] from [cur] stops at the name of a
    file although more components follow. *)
Fixpoint through_file (top : tree) (fl : list file) (cur : list str)
    (comps : list str) : bool :=
  match comps with
  | [] => false
  | x :: rest =>
      if is_dot x then through_file top fl cur rest
      else if is_dotdot x then through_file top fl (removelast cur) rest
      else
        match subtree top cur with
        | None => false
        | Some t =>
            match find_sub t x with
            | Some (d, _) => through_file top fl (cur ++ [d]) rest
            | None =>
                match rest with
                | [] => false
                | _ :: _ =>
                    match find_file fl cur x with
                    | Some _ => true
                    | None => false
                    end
                end
            end
        end
  end.

(** What [os.rename] raises for a path that leads nowhere: under POSIX
    [NotADirectoryError] (ENOTDIR) when the path goes through a file, and
    [FileNotFoundError] (ENOENT) otherwise. *)
Definition unreachable (w : world) (p : str) : exn :=
  match flavour h, p with
  | Posix, _ :: _ =>
      if through_file (dirs w) (files w) [] (split_path Posix p)
      then NotADirectoryErrorOS else FileNotFoundError
  | _, _ => FileNotFoundError
  end.

(** [os.rename(old, new)] with a file as its source.  Renaming a directory
    is outside the model: the tree of directories is fixed, and a source
    that is a directory answers [OSError], where the real call would rename
    it.  The directory of the destination must exist.  A destination that
    is another existing file is replaced under POSIX and refused under
    Windows; a destination that is the source under another spelling takes
    the new spelling. *)
Definition os_rename (old new : str) : M unit :=
  fun w0 =>
    let w := log_rename old new w0 in
    match resolve w old with
    | None => (Raise (unreachable w old), w)
    | Some (TDir _) => (Raise OSError, w)
    | Some (TName c x) =>
        match find_file (files w) c x with
        | None => (Raise FileNotFoundError, w)
        | Some src =>
            match resolve w new with
            | None => (Raise (unreachable w new), w)
            | Some (TDir _) => (Raise IsADirectoryError, w)
            | Some (TName c' y) =>
                let moved := File c' y (f_data src) in
                let rest := remove_entry c' y (remove_entry c x (files w)) in
                match find_file (files w) c' y with
                | None => (Ret tt, set_files (moved :: rest) w)
                | Some _ =>
                    if path_eqb c c' && name_eqb x y then
                      (Ret tt, set_files (moved :: rest) w)
                    else
                      match flavour h with
                      | Posix => (Ret tt, set_files (moved :: rest) w)
                      | Nt => (Raise FileExistsError, w)
                      end
                end
            end
        end
    end.

(** [for x in xs: body(x)] *)
Fixpoint for_each {A} (xs : list A) (body : A -> M unit) : M unit :=
  match xs with
  | [] => ret tt
  | x :: xs' => bind (body x) (fun _ => for_each xs' body)
  end.

(** [for root, dirs, files in os.walk(top, topdown=False): body(...)].
    [os.walk] lists a directory when it reaches it, walks into the
    subdirectories, and only then yields the listing it took: the body runs
    on that listing, whatever the bodies run in between did to the
    directory.  [c] is the place of [top] in the tree. *)
Fixpoint walk_bottom_up (body : str -> list str -> list str -> M unit)
    (t : tree) (c : list str) (top : str) {struct t} : M unit :=
  match t with
  | Dir subs =>
      fun w =>
        let dirnames := map fst subs in
        let nondirs := listing w c in
        let below :=
          (fix each (l : list (str * tree)) : M unit :=
             match l with
             | [] => ret tt
             | (d, t') :: l' =>
                 bind (walk_bottom_up body t' (c ++ [d]) (join (flavour h) top d))
                      (fun _ => each l')
             end) subs in
        bind below (fun _ => body top dirnames nondirs) w
  end.

End WithHost.
End Fs.
Import Fs.

(* ================================================================== *)
(** ** The script *)

Section Script.
Variable h : host.

(** [safe_rename(old_path, new_path)]:
[[
    if os.path.normcase(old_path) == os.path.normcase(new_path):
        dirpath = os.path.dirname(old_path)
        temp = os.path.join(dirpath, str(uuid.uuid4()))
        os.rename(old_path, temp)
        os.rename(temp, new_path)
    else:
        os.rename(old_path, new_path)
]] *)
Definition safe_rename (old_path new_path : str) : M unit :=
  if str_eqb (normcase (flavour h) old_path) (normcase (flavour h) new_path) then
    fun w =>
      let dirpath := dirname (flavour h) old_path in
      let temp := join (flavour h) dirpath (uuid4 w) in
      bind (os_rename h old_path temp) (fun _ => os_rename h temp new_path) w
  else
    os_rename h old_path new_path.

(** The test of line 53, [fname.lower().endswith(old_ext)]. *)
Definition matches (old_ext fname : str) : bool :=
  endswith (lower fname) old_ext.

(** The name line 54-55 computes, [fname[:-len(old_ext)] + new_ext]. *)
Definition new_name_of (old_ext new_ext fname : str) : str :=
  let base := slice_to_neg fname (length old_ext) in
  base ++ new_ext.

Definition warning (old_path : str) : str :=
  lit "[WARN] Skipping " ++ old_path ++ lit ": target exists".

(** The test of line 59. *)
Definition collides (w : world) (old_path new_path : str) : bool :=
  exists_ h w new_path
  && negb (str_eqb (normcase (flavour h) old_path) (normcase (flavour h) new_path)).

(** The body of the inner loop, lines 53-62, for one [fname] of [files]
    in the directory [root]. *)
Definition loop_body (old_ext new_ext root fname : str) : M unit :=
  if matches old_ext fname then
    let new_name := new_name_of old_ext new_ext fname in
    let old_path := join (flavour h) root fname in
    let new_path := join (flavour h) root new_name in
    fun w =>
      if collides w old_path new_path then print (warning old_path) w
      else safe_rename old_path new_path w
  else ret tt.

(** [os.walk(path, topdown=False)] with the loop body as its consumer; a
    [path] that is no directory yields nothing. *)
Definition os_walk (path : str)
    (body : str -> list str -> list str -> M unit) : M unit :=
  fun w =>
    match resolve h w path with
    | Some (TDir c) =>
        match subtree (dirs w) c with
        | Some t => walk_bottom_up h body t c path w
        | None => ret tt w
        end
    | _ => ret tt w
    end.

(** What a caller of a Python function may get back. *)
Inductive pyval := PyNone | PyList (items : list (str * str)).

(** [rename_extensions(path, old_ext, new_ext)]; the function has no
    [return], so a call that does not raise evaluates to [None]. *)
Definition rename_extensions (path old_ext new_ext : str) : M pyval :=
  fun w =>
    if negb (isdir h w path) then
      raise (NotADirectoryError (lit "Not a directory: " ++ path)) w
    else
      let old_ext := normalize_ext old_ext in
      let new_ext := normalize_ext new_ext in
      bind (os_walk path
              (fun root _ files =>
                 for_each files (loop_body old_ext new_ext root)))
           (fun _ => ret PyNone) w.

End Script.

(* ================================================================== *)
(** ** The vocabulary of the specification *)

(** The first character, if there is one, is no white space. *)
Definition no_lead (s : str) : Prop :=
  match s with
  | c :: _ => is_space c = false
  | [] => True
  end.

(** Neither end of the string is white space. *)
Definition stripped (s : str) : Prop := no_lead s /\ no_lead (rev s).

Definition has_space (s : str) : bool := existsb is_space s.

(** The invariant as the data model words it: non-empty, starts with a
    dot, all lower case, no white space inside. *)
Definition ExtensionSpec (s : str) : Prop :=
  s <> [] /\ startswith s "." = true /\ lower s = s /\ has_space s = false.

(** What the normaliser guarantees: white space is taken off the two ends
    only. *)
Definition NormalForm (s : str) : Prop :=
  s <> [] /\ startswith s "." = true /\ lower s = s
  /\ forallb (fun c => negb (is_upper c)) s = true /\ stripped s.

(** A name without any dot has no extension. *)
Definition no_extension (fname : str) : Prop := ~ In "."%char fname.


(** Two paths are the same when letter case is ignored. *)
Definition ci_identical (a b : str) : Prop := lower a = lower b.

(** The [os.rename] calls issued between the states [w] and [w']. *)
Definition calls_between (w w' : world) : list (str * str) :=
  skipn (length (renames w)) (renames w').

(** The lines printed between the states [w] and [w']. *)
Definition printed_between (w w' : world) : list str :=
  skipn (length (stdout w)) (stdout w').

(** The temporary path [safe_rename] picks for [old_path] in state [w]. *)
Definition temp_path (h : host) (old_path : str) (w : world) : str :=
  join (flavour h) (dirname (flavour h) old_path) (uuid4 w).

(** *** Hosts and states used in the examples *)

Definition linux : host := Host Posix true.
Definition macos : host := Host Posix false.
Definition windows : host := Host Nt false.


(** [root/x.old], [root/x.new], [root/doc.txt], [root/a/y.OLD] *)
Definition w_collision : world :=
  World (Dir [(lit "root", Dir [(lit "a", Dir [])])])
        [File [lit "root"] "x.old" 1; File [lit "root"] "x.new" 2;
         File [lit "root"] "doc.txt" 3; File [lit "root"; lit "a"] "y.OLD" 4]
        [] [].

(** [root/FILE.OLD] *)
Definition w_single : world :=
  World (Dir [(lit "root", Dir [])]) [File [lit "root"] "FILE.OLD" 5] [] [].

(** The part of [walk_bottom_up] that walks into the subdirectories
    [subs] of the directory [top], one after the other. *)
Definition walk_subs (h : host) (body : str -> list str -> list str -> M unit)
    (c : list str) (top : str) : list (str * tree) -> M unit :=
  fix each (l : list (str * tree)) : M unit :=
    match l with
    | [] => ret tt
    | (d, t') :: l' =>
        bind (walk_bottom_up h body t' (c ++ [d]) (join (flavour h) top d))
             (fun _ => each l')
    end.

(** The outer loop of [rename_extensions] for one yielded directory. *)
Definition dir_body (h : host) (old_ext new_ext : str)
    (root : str) (_ : list str) (files : list str) : M unit :=
  for_each files (loop_body h old_ext new_ext root).

(** A source path the script may report: a selected file of some
    directory. *)
Definition selected_path (h : host) (old_ext : str) (p : str) : Prop :=
  exists root fname,
    p = join (flavour h) root fname /\ matches old_ext fname = true.

(** Between [w] and [w'] only warnings about selected files were printed. *)
Definition only_warnings (h : host) (old_ext : str) (w w' : world) : Prop :=
  exists ps, stdout w' = stdout w ++ map warning ps
             /\ Forall (selected_path h old_ext) ps.

(** What the specification promises the caller: a report with
    one entry per printed skip. *)
Definition returns_skip_report (r : outcome pyval) (w w' : world) : Prop :=
  exists report,
    r = Ret (PyList report)
    /\ length report = length (printed_between w w').

(** A name has no separator in it. *)
Definition plain (f : OsPath.flavour) (x : str) : bool :=
  forallb (fun c => negb (is_sep f c)) x.

(** What [ntpath.normcase] does to one character. *)
Definition normchar (c : ascii) : ascii :=
  lower_char (if ascii_eqb c slash then backslash else c).

(** What a successful [os.rename(old, new)] does to the files: the entry
    [x] of directory [c] leaves, and its content arrives as entry [y] of
    directory [c'], in the place of whatever carried that name. *)
Definition rename_effect (h : host) (w : world) (old new : str)
    (fl' : list file) : Prop :=
  exists c x src c' y,
    resolve h w old = Some (TName c x)
    /\ find_file h (files w) c x = Some src
    /\ resolve h w new = Some (TName c' y)
    /\ fl' = File c' y (f_data src)
             :: remove_entry h c' y (remove_entry h c x (files w)).

(** No file name has a separator in it, as in every real directory. *)
Definition plain_names (h : host) (w : world) : Prop :=
  Forall (fun e => plain (flavour h) (f_name e) = true) (files w).

(** The name a path ends in. *)
Definition basename_of (h : host) (p : str) : str :=
  last (split_path (flavour h) p) [].

(** Between [w] and [w'] only warnings were printed, each about a path
    whose last component is a selected name. *)
Definition warned_selected (h : host) (old_ext : str) (w w' : world) : Prop :=
  exists ps, stdout w' = stdout w ++ map warning ps
             /\ Forall (fun p => matches old_ext (basename_of h p) = true) ps.

(** *** Well-formed directory trees *)

(** A directory name: no separator in it, and neither empty nor [.] nor
    [..]. *)
Definition good_name (f : OsPath.flavour) (d : str) : bool :=
  plain f d && negb (is_dot d) && negb (is_dotdot d).

(** No two of the subdirectories are the same entry. *)
Fixpoint distinct_names (h : host) (l : list (str * tree)) : bool :=
  match l with
  | [] => true
  | (d, _) :: l' =>
      negb (existsb (fun e => name_eqb h (fst e) d) l') && distinct_names h l'
  end.

Fixpoint wf_tree (h : host) (t : tree) : bool :=
  match t with
  | Dir subs =>
      distinct_names h subs
      && (fix all (l : list (str * tree)) : bool :=
            match l with
            | [] => true
            | (d, t') :: l' =>
                good_name (flavour h) d && wf_tree h t' && all l'
            end) subs
  end.

(** The directories a walk of the tree [t], which sits at [c], reaches. *)
Fixpoint walked (t : tree) (c : list str) : list (list str) :=
  match t with
  | Dir subs =>
      c :: (fix each (l : list (str * tree)) : list (list str) :=
              match l with
              | [] => []
              | (d, t') :: l' => walked t' (c ++ [d]) ++ each l'
              end) subs
  end.

Definition walked_subs (c : list str) : list (str * tree) -> list (list str) :=
  fix each (l : list (str * tree)) : list (list str) :=
    match l with
    | [] => []
    | (d, t') :: l' => walked t' (c ++ [d]) ++ each l'
    end.

Definition wf_subs (h : host) : list (str * tree) -> bool :=
  fix all (l : list (str * tree)) : bool :=
    match l with
    | [] => true
    | (d, t') :: l' => good_name (flavour h) d && wf_tree h t' && all l'
    end.

(** The directories a call on [path] reaches in the state [w]. *)
Definition reached (h : host) (w : world) (path : str) : list (list str) :=
  match resolve h w path with
  | Some (TDir c) =>
      match subtree (dirs w) c with
      | Some t => walked t c
      | None => []
      end
  | _ => []
  end.

(** Neither extension is the end of the other. *)
Definition unrelated (oe ne : str) : Prop :=
  endswith oe ne = false /\ endswith ne oe = false.

(** [root/a/b/file1.old], [root/a/file2.old], [root/doc.txt] *)
Definition w_nested : world :=
  World (Dir [(lit "root", Dir [(lit "a", Dir [(lit "b", Dir [])])])])
        [File [lit "root"; lit "a"; lit "b"] "file1.old" 1;
         File [lit "root"; lit "a"] "file2.old" 2;
         File [lit "root"] "doc.txt" 3]
        [] [].

(** The file is one the script selects. *)
Definition selected (old_ext : str) (e : file) : Prop :=
  matches old_ext (f_name e) = true.

(** Windows on a volume that tells [File.txt] from [file.txt] (a directory
    with the case-sensitive flag set). *)
Definition windows_cs : host := Host Nt true.

(** [root/X.OLD] and [root/x.old], two files *)
Definition w_two_cases : world :=
  World (Dir [(lit "root", Dir [])])
        [File [lit "root"] "X.OLD" 1; File [lit "root"] "x.old" 2] [] [].

(* ================================================================== *)
(** ** The form *)

(** A message box the script opens: [messagebox.showerror(title, message)]
    or [messagebox.showinfo(title, message)]. *)
Inductive box :=
| ShowError (title message : str)
| ShowInfo (title message : str).

(** The three entry fields, and the message boxes opened so far (oldest
    first). *)
Record form := Form {
  entry_path : str;
  entry_old : str;
  entry_new : str;
  boxes : list box
}.

(** [entry.delete(0, tk.END)] and [entry.insert(index, s)] on the text of
    an entry. *)
Definition entry_delete_all (text : str) : str := [].

Definition entry_insert (index : nat) (s text : str) : str :=
  firstn index text ++ s ++ skipn index text.

(** [browse_dir()], where [sel] is what [filedialog.askdirectory()]
    returns (the empty string when the dialog is cancelled):
[[
    sel = filedialog.askdirectory()
    if sel:
        entry_path.delete(0, tk.END)
        entry_path.insert(0, sel)
]] *)
Definition browse_dir (sel : str) (g : form) : form :=
  match sel with
  | [] => g
  | _ :: _ =>
      Form (entry_insert 0 sel (entry_delete_all (entry_path g)))
           (entry_old g) (entry_new g) (boxes g)
  end.

Definition show (b : box) (g : form) : form :=
  Form (entry_path g) (entry_old g) (entry_new g) (boxes g ++ [b]).

Definition newline : ascii := ascii_of_nat 10.

(** [f"Renamed *{old_ext} to *{new_ext} in:\n{path}"] *)
Definition done_message (path old_ext new_ext : str) : str :=
  lit "Renamed *" ++ old_ext ++ lit " to *" ++ new_ext ++ lit " in:"
  ++ newline :: path.

Section Run.
Variable h : host.

(** The text the operating system puts into the exceptions [os.rename]
    raises. *)
Variable strerror : exn -> str.

(** [str(e)] *)
Definition str_of_exn (e : exn) : str :=
  match e with
  | NotADirectoryError msg => msg
  | _ => strerror e
  end.

(** [run()]:
[[
    path = entry_path.get().strip()
    old_ext = entry_old.get().strip()
    new_ext = entry_new.get().strip()
    if not path or not old_ext or not new_ext:
        messagebox.showerror("Error", "All fields must be filled out.")
        return
    try:
        rename_extensions(path, old_ext, new_ext)
        messagebox.showinfo("Done", f"Renamed *{old_ext} to *{new_ext} in:\n{path}")
    except Exception as e:
        messagebox.showerror("Error", str(e))
]] *)
Definition run (g : form) (w : world) : form * world :=
  let path := strip (entry_path g) in
  let old_ext := strip (entry_old g) in
  let new_ext := strip (entry_new g) in
  match path, old_ext, new_ext with
  | _ :: _, _ :: _, _ :: _ =>
      match rename_extensions h path old_ext new_ext w with
      | (Ret _, w') =>
          (show (ShowInfo "Done" (done_message path old_ext new_ext)) g, w')
      | (Raise e, w') => (show (ShowError "Error" (str_of_exn e)) g, w')
      end
  | _, _, _ =>
      (show (ShowError "Error" "All fields must be filled out.") g, w)
  end.

End Run.

(** A directory whose name ends in a blank: [data ], with [data /a.old] *)
Definition w_blank_dir : world :=
  World (Dir [(lit "data ", Dir [])]) [File [lit "data "] "a.old" 1] [] [].

(** No two files are the same entry of the same directory, as in every
    real directory. *)
Fixpoint unique_entries (h : host) (fl : list file) : Prop :=
  match fl with
  | [] => True
  | e :: r =>
      (forall e', In e' r -> is_entry h (f_dir e) (f_name e) e' = false)
      /\ unique_entries h r
  end.

(** The contents of all files, in the order of the file list. *)
Definition contents (w : world) : list nat := map f_data (files w).

(** The entry a selected file is renamed to. *)
Definition renamed (old_ext new_ext : str) (e : file) : file :=
  File (f_dir e) (new_name_of old_ext new_ext (f_name e)) (f_data e).

(* ================================================================== *)
(** ** The turns of the loop *)

(** One turn of the inner loop: the directory path [os.walk] yielded, the
    file name, and the state in which the turn starts. *)
Definition turn : Type := str * str * world.

(** The turns the inner loop takes over the listing [fs] of the directory
    [root], starting in [w]: one per name, in the order of the listing,
    until one raises. *)
Fixpoint loop_turns (h : host) (oe ne root : str) (fs : list str) (w : world)
  : list turn :=
  match fs with
  | [] => []
  | x :: fs' =>
      (root, x, w)
      :: match loop_body h oe ne root x w with
         | (Ret _, w1) => loop_turns h oe ne root fs' w1
         | (Raise _, _) => []
         end
  end.

(** The turns of a whole walk, in the order in which the walk reaches the
    files: for every directory, the turns in its subdirectories come before
    the turns on its own files. *)
Fixpoint walk_turns (h : host) (oe ne : str) (t : tree) (c : list str)
    (top : str) (w : world) {struct t} : list turn :=
  match t with
  | Dir subs =>
      (fix each (l : list (str * tree)) (w1 : world) : list turn :=
         match l with
         | [] => []
         | (d, t') :: l' =>
             walk_turns h oe ne t' (c ++ [d]) (join (flavour h) top d) w1
             ++ match walk_bottom_up h (dir_body h oe ne) t' (c ++ [d])
                        (join (flavour h) top d) w1 with
                | (Ret _, w2) => each l' w2
                | (Raise _, _) => []
                end
         end) subs w
      ++ match walk_subs h (dir_body h oe ne) c top subs w with
         | (Ret _, wb) => loop_turns h oe ne top (listing w c) wb
         | (Raise _, _) => []
         end
  end.

Definition subs_turns (h : host) (oe ne : str) (c : list str) (top : str)
  : list (str * tree) -> world -> list turn :=
  fix each (l : list (str * tree)) (w1 : world) : list turn :=
    match l with
    | [] => []
    | (d, t') :: l' =>
        walk_turns h oe ne t' (c ++ [d]) (join (flavour h) top d) w1
        ++ match walk_bottom_up h (dir_body h oe ne) t' (c ++ [d])
                   (join (flavour h) top d) w1 with
           | (Ret _, w2) => each l' w2
           | (Raise _, _) => []
           end
    end.

(** The turns of a call of [rename_extensions]. *)
Definition call_turns (h : host) (path old_ext new_ext : str) (w : world)
  : list turn :=
  match resolve h w path with
  | Some (TDir c) =>
      match subtree (dirs w) c with
      | Some t =>
          walk_turns h (normalize_ext old_ext) (normalize_ext new_ext) t c path w
      | None => []
      end
  | _ => []
  end.

(** A turn is a skipped collision when its file is selected and the test
    of line 59 holds in the state of the turn. *)
Definition skipped (h : host) (oe ne : str) (t : turn) : bool :=
  let '(root, x, w) := t in
  matches oe x
  && collides h w (join (flavour h) root x)
       (join (flavour h) root (new_name_of oe ne x)).

Definition turn_path (h : host) (t : turn) : str :=
  let '(root, x, _) := t in join (flavour h) root x.

(** The source paths of the skipped collisions among the turns, in the
    order of the turns. *)
Definition skipped_paths (h : host) (oe ne : str) (ts : list turn) : list str :=
  map (turn_path h) (filter (skipped h oe ne) ts).

(** The turns follow one another: the first starts in [w], each next one
    starts in the state the turn before it left, and the last one leaves
    [w']. *)
Fixpoint chained (h : host) (oe ne : str) (w : world) (ts : list turn)
    (w' : world) : Prop :=
  match ts with
  | [] => w' = w
  | (root, x, w1) :: ts' =>
      w1 = w /\ chained h oe ne (snd (loop_body h oe ne root x w1)) ts' w'
  end.

(** The turns [ts] lead from [w] to [w'], and what was printed on the way
    is one warning per skipped collision, in the order of the turns, and
    nothing else. *)
Definition traced (h : host) (oe ne : str) (w : world) (ts : list turn)
    (w' : world) : Prop :=
  chained h oe ne w ts w'
  /\ stdout w' = stdout w ++ map warning (skipped_paths h oe ne ts).

(* ================================================================== *)
(** ** Strings beyond code point 255 *)

(** [str.lower] acts character by character on the code points below 256
    and not on all others.  [Wide] repeats the string side of the script
    over an alphabet with two more code points, on which it does not:
    U+0130, the capital I with a dot above, whose lower case is the two code
    points U+0069 U+0307, and U+0307, the combining dot above. *)
Module Wide.

Inductive cp : Type :=
| Low (a : ascii)   (* a code point below 256 *)
| IDot              (* U+0130 *)
| DotAbove.         (* U+0307 *)

Definition ustr := list cp.

(** A string of code points below 256, read in the wider alphabet. *)
Definition inj (s : str) : ustr := map Low s.

(** Neither of the two further code points is white space. *)
Definition is_space (c : cp) : bool :=
  match c with
  | Low a => PyStr.is_space a
  | _ => false
  end.

(** [str.lower] on one code point. *)
Definition lower_cp (c : cp) : ustr :=
  match c with
  | Low a => [Low (lower_char a)]
  | IDot => [Low "i"%char; DotAbove]
  | DotAbove => [DotAbove]
  end.

(** [s.lower()] *)
Definition lower (s : ustr) : ustr := flat_map lower_cp s.

Fixpoint lstrip (s : ustr) : ustr :=
  match s with
  | c :: s' => if is_space c then lstrip s' else s
  | [] => []
  end.

Definition rstrip (s : ustr) : ustr := rev (lstrip (rev s)).

Definition strip (s : ustr) : ustr := rstrip (lstrip s).

Definition cp_eqb (a b : cp) : bool :=
  match a, b with
  | Low x, Low y => ascii_eqb x y
  | IDot, IDot => true
  | DotAbove, DotAbove => true
  | _, _ => false
  end.

Fixpoint str_eqb (a b : ustr) : bool :=
  match a, b with
  | [], [] => true
  | x :: a', y :: b' => cp_eqb x y && str_eqb a' b'
  | _, _ => false
  end.

(** [s.startswith(p)] *)
Fixpoint startswith (s p : ustr) {struct p} : bool :=
  match p with
  | [] => true
  | y :: p' =>
      match s with
      | x :: s' => cp_eqb x y && startswith s' p'
      | [] => false
      end
  end.

(** [s.endswith(p)] *)
Definition endswith (s p : ustr) : bool :=
  (length p <=? length s) && str_eqb (skipn (length s - length p) s) p.

(** [s[:-k]] for [k >= 0] *)
Definition slice_to_neg (s : ustr) (k : nat) : ustr :=
  match k with
  | 0 => []
  | _ => firstn (length s - k) s
  end.

(** [normalize_ext(ext)] *)
Definition normalize_ext (ext : ustr) : ustr :=
  let ext := lower (strip ext) in
  if startswith ext (inj ".") then ext else inj "." ++ ext.

(** The test of line 53, [fname.lower().endswith(old_ext)]. *)
Definition matches (old_ext fname : ustr) : bool :=
  endswith (lower fname) old_ext.

(** The name line 54-55 computes, [fname[:-len(old_ext)] + new_ext]. *)
Definition new_name_of (old_ext new_ext fname : ustr) : ustr :=
  let base := slice_to_neg fname (length old_ext) in
  base ++ new_ext.

End Wide.

(** Case analysis over the 256 code points. *)
Ltac each_char c := destruct c as [[] [] [] [] [] [] [] []].

(* ================================================================== *)
(** * Properties *)

(** ** The script on small inputs *)

Example normalize_ext_variants :
  normalize_ext "TXT" = lit ".txt"
  /\ normalize_ext ".txt" = lit ".txt"
  /\ normalize_ext " .TxT " = lit ".txt".
Proof. repeat split. Qed.

(** [root/a/b/file1.old] and [root/a/file2.old] are both renamed, the
    deeper one first; [root/doc.txt] stays. *)
Example bottom_up_walk :
  rename_extensions linux "root" "old" "new" w_nested
  = (Ret PyNone,
     World (dirs w_nested)
           [File [lit "root"; lit "a"] "file2.new" 2;
            File [lit "root"; lit "a"; lit "b"] "file1.new" 1;
            File [lit "root"] "doc.txt" 3]
           []
           [(lit "root/a/b/file1.old", lit "root/a/b/file1.new");
            (lit "root/a/file2.old", lit "root/a/file2.new")]).
Proof. reflexivity. Qed.

(** The turns of that call, deepest directory first. *)
Example bottom_up_turns :
  map (turn_path linux) (call_turns linux "root" "old" "new" w_nested)
  = [lit "root/a/b/file1.old"; lit "root/a/file2.old"; lit "root/doc.txt"].
Proof. reflexivity. Qed.

(** Under Windows a change of case only goes through the temporary name. *)
Example case_only_rename_on_windows :
  let r := rename_extensions windows "root" "old" "OLD" w_single in
  fst r = Ret PyNone
  /\ files (snd r) = [File [lit "root"] "FILE.old" 5]
  /\ stdout (snd r) = []
  /\ length (renames (snd r)) = 2.
Proof. repeat split. Qed.

(** ** Characters and strings *)

Lemma lower_char_idem c : lower_char (lower_char c) = lower_char c.
Proof. each_char c; reflexivity. Qed.

Lemma lower_char_not_upper c : is_upper (lower_char c) = false.
Proof. each_char c; reflexivity. Qed.

Lemma lower_char_space c : is_space (lower_char c) = is_space c.
Proof. each_char c; reflexivity. Qed.

Lemma ascii_eqb_eq a b : ascii_eqb a b = true <-> a = b.
Proof. apply Ascii.eqb_eq. Qed.

Lemma ascii_eqb_refl a : ascii_eqb a a = true.
Proof. apply Ascii.eqb_refl. Qed.

Lemma str_eqb_eq a : forall b, str_eqb a b = true <-> a = b.
Proof.
  induction a as [|x a IH]; intros [|y b]; simpl; split; intro H;
    try reflexivity; try discriminate.
  - apply andb_true_iff in H as [H1 H2].
    apply ascii_eqb_eq in H1. apply IH in H2. congruence.
  - injection H as -> ->. rewrite ascii_eqb_refl. simpl. now apply IH.
Qed.

Lemma str_eqb_refl a : str_eqb a a = true.
Proof. now apply str_eqb_eq. Qed.

Lemma str_eqb_neq a b : str_eqb a b = false <-> a <> b.
Proof.
  split.
  - intros H E. apply str_eqb_eq in E. congruence.
  - intro N. destruct (str_eqb a b) eqn:E; [|reflexivity].
    apply str_eqb_eq in E. contradiction.
Qed.

Lemma lower_idem s : lower (lower s) = lower s.
Proof.
  unfold lower. rewrite map_map. apply map_ext. apply lower_char_idem.
Qed.

Lemma lower_app a b : lower (a ++ b) = lower a ++ lower b.
Proof. apply map_app. Qed.

Lemma lower_length s : length (lower s) = length s.
Proof. apply length_map. Qed.

Lemma lower_rev s : lower (rev s) = rev (lower s).
Proof. apply map_rev. Qed.

Lemma startswith_spec s p :
  startswith s p = true <-> exists t, s = p ++ t.
Proof.
  revert s. induction p as [|y p IH]; intros s; simpl.
  - split; [exists s; reflexivity | reflexivity].
  - destruct s as [|x s].
    + split; [discriminate | intros [t Ht]; discriminate].
    + simpl. rewrite andb_true_iff, ascii_eqb_eq, IH. split.
      * intros [-> [t ->]]. now exists t.
      * intros [t Ht]. injection Ht as -> ->. split; [reflexivity | now exists t].
Qed.

Lemma endswith_spec s p :
  endswith s p = true <-> exists t, s = t ++ p.
Proof.
  unfold endswith. rewrite andb_true_iff, Nat.leb_le, str_eqb_eq. split.
  - intros [Hl He]. exists (firstn (length s - length p) s).
    remember (length s - length p) as n. rewrite <- He.
    symmetry. apply firstn_skipn.
  - intros [t ->]. rewrite length_app. split; [lia|].
    replace (length t + length p - length p) with (length t) by lia.
    rewrite skipn_app, skipn_all, Nat.sub_diag. reflexivity.
Qed.

(** ** Stripping *)

Lemma lstrip_no_lead s : no_lead (lstrip s).
Proof.
  induction s as [|c s IH]; simpl; [exact I|].
  destruct (is_space c) eqn:E; [exact IH | exact E].
Qed.

Lemma lstrip_fix s : no_lead s -> lstrip s = s.
Proof. destruct s as [|c s]; simpl; [reflexivity | now intros ->]. Qed.

Lemma lstrip_suffix s : exists pre, s = pre ++ lstrip s.
Proof.
  induction s as [|c s [pre IH]]; simpl.
  - now exists [].
  - destruct (is_space c).
    + exists (c :: pre). simpl. now f_equal.
    + now exists [].
Qed.

Lemma no_lead_prefix a b : no_lead (a ++ b) -> no_lead a.
Proof. destruct a; simpl; auto. Qed.

Lemma no_lead_app a b : no_lead a -> a <> [] -> no_lead (a ++ b).
Proof. destruct a; simpl; [congruence | auto]. Qed.

Lemma rstrip_prefix s : exists post, s = rstrip s ++ post.
Proof.
  unfold rstrip. destruct (lstrip_suffix (rev s)) as [pre E].
  exists (rev pre). rewrite <- rev_app_distr, <- E. symmetry. apply rev_involutive.
Qed.

Lemma strip_stripped s : stripped (strip s).
Proof.
  unfold stripped, strip. split.
  - destruct (rstrip_prefix (lstrip s)) as [post E].
    apply no_lead_prefix with post. rewrite <- E. apply lstrip_no_lead.
  - unfold rstrip. rewrite rev_involutive. apply lstrip_no_lead.
Qed.

Lemma strip_fix s : stripped s -> strip s = s.
Proof.
  intros [H1 H2]. unfold strip, rstrip.
  rewrite (lstrip_fix _ H1), (lstrip_fix _ H2). apply rev_involutive.
Qed.

Lemma no_lead_lower s : no_lead s -> no_lead (lower s).
Proof. destruct s as [|c s]; simpl; [auto | now rewrite lower_char_space]. Qed.

Lemma stripped_lower s : stripped s -> stripped (lower s).
Proof.
  intros [H1 H2]. split; [now apply no_lead_lower|].
  rewrite <- lower_rev. now apply no_lead_lower.
Qed.

Lemma stripped_dot s : stripped s -> stripped (lit "." ++ s).
Proof.
  intros [_ H2]. split; [reflexivity|].
  simpl. destruct (rev s) as [|c r] eqn:E; simpl; [reflexivity | exact H2].
Qed.

(** ** The normaliser *)

Lemma normalize_ext_cases ext :
  let e := lower (strip ext) in
  (startswith e "." = true /\ normalize_ext ext = e)
  \/ (startswith e "." = false /\ normalize_ext ext = lit "." ++ e).
Proof.
  simpl. unfold normalize_ext.
  destruct (startswith (lower (strip ext)) ".") eqn:E; [left | right]; auto.
Qed.

Lemma normalize_ext_starts ext : startswith (normalize_ext ext) "." = true.
Proof.
  destruct (normalize_ext_cases ext) as [[H ->] | [_ ->]]; [exact H | reflexivity].
Qed.

Lemma normalize_ext_lower ext : lower (normalize_ext ext) = normalize_ext ext.
Proof.
  destruct (normalize_ext_cases ext) as [[_ ->] | [_ ->]].
  - apply lower_idem.
  - rewrite lower_app, lower_idem. reflexivity.
Qed.

Lemma normalize_ext_stripped ext : stripped (normalize_ext ext).
Proof.
  destruct (normalize_ext_cases ext) as [[_ ->] | [_ ->]].
  - apply stripped_lower, strip_stripped.
  - apply stripped_dot, stripped_lower, strip_stripped.
Qed.

Lemma normalize_ext_fix r :
  stripped r -> lower r = r -> startswith r "." = true -> normalize_ext r = r.
Proof.
  intros Hs Hl Hd. unfold normalize_ext.
  rewrite (strip_fix Hs), Hl, Hd. reflexivity.
Qed.

Lemma normalize_ext_dot ext : exists e, normalize_ext ext = "."%char :: e.
Proof.
  pose proof (normalize_ext_starts ext) as H.
  apply startswith_spec in H as [t Ht]. now exists t.
Qed.

(** ** The normaliser against the ExtensionSpec invariant *)

(** C7, as stated, fails: [normalize_ext("a b")] is [".a b"], which keeps
    the blank between [a] and [b]. *)
Lemma normalize_ext_keeps_inner_space :
  normalize_ext "a b" = lit ".a b" /\ ~ ExtensionSpec (normalize_ext "a b").
Proof.
  split; [reflexivity|].
  intros (_ & _ & _ & H). vm_compute in H. discriminate.
Qed.

(** C7, amended: for every input the normaliser's output is non-empty,
    starts with a dot, is all lower case (it is its own [lower()] and has
    no upper-case character) and has no white space at either end. *)
Theorem normalize_ext_normal_form ext : NormalForm (normalize_ext ext).
Proof.
  repeat split.
  - destruct (normalize_ext_dot ext) as [e ->]. discriminate.
  - apply normalize_ext_starts.
  - apply normalize_ext_lower.
  - rewrite <- normalize_ext_lower. unfold lower.
    rewrite forallb_forall. intros c Hc. apply in_map_iff in Hc as [d [<- _]].
    now rewrite lower_char_not_upper.
  - apply normalize_ext_stripped.
  - apply normalize_ext_stripped.
Qed.

(** C9: the normaliser is idempotent. *)
Theorem normalize_ext_idempotent x :
  normalize_ext (normalize_ext x) = normalize_ext x.
Proof.
  apply normalize_ext_fix.
  - apply normalize_ext_stripped.
  - apply normalize_ext_lower.
  - apply normalize_ext_starts.
Qed.

(** ** The matcher *)

Lemma lower_char_dot c : lower_char c = "."%char <-> c = "."%char.
Proof. each_char c; split; intro H; try reflexivity; discriminate H. Qed.

Lemma matches_spec old_ext fname :
  matches old_ext fname = true
  <-> exists stem tail, fname = stem ++ tail /\ lower tail = old_ext.
Proof.
  unfold matches. rewrite endswith_spec. split.
  - intros [t Ht]. unfold lower in Ht.
    apply map_eq_app in Ht as (stem & tail & -> & <- & <-).
    now exists stem, tail.
  - intros (stem & tail & -> & <-). exists (lower stem). apply lower_app.
Qed.

Lemma matches_dot fname :
  matches "." fname = true <-> exists stem, fname = stem ++ lit ".".
Proof.
  rewrite matches_spec. split.
  - intros (stem & tail & -> & Ht). exists stem. f_equal.
    change (lit ".") with ["."%char] in *.
    destruct tail as [|c [|d tail]]; try discriminate.
    simpl in Ht. injection Ht as Ht.
    apply (proj1 (lower_char_dot c)) in Ht. subst c. reflexivity.
  - intros [stem ->]. now exists stem, (lit ".").
Qed.

(** C8, as stated, fails in its second half: with the extension ["."] the
    matcher does not select [README], a name with no extension at all. *)
Lemma dot_does_not_match_README :
  normalize_ext "  " = lit "." /\ no_extension "README"
  /\ matches (normalize_ext "  ") "README" = false.
Proof.
  split; [reflexivity|]. split; [|reflexivity].
  intro H. vm_compute in H. intuition discriminate.
Qed.

(** C8, amended: an input that is empty after trimming normalises to
    ["."]; with that extension the matcher selects exactly the names that
    end with a dot, and no name without a dot. *)
Theorem empty_ext_normalizes_to_dot ext (Hempty : strip ext = []) :
  normalize_ext ext = lit "."
  /\ (forall fname, matches (normalize_ext ext) fname = true
                    <-> exists stem, fname = stem ++ lit ".")
  /\ (forall fname, no_extension fname ->
                    matches (normalize_ext ext) fname = false).
Proof.
  assert (E : normalize_ext ext = lit ".").
  { unfold normalize_ext. rewrite Hempty. reflexivity. }
  rewrite E. split; [reflexivity|]. split.
  - intro fname. apply matches_dot.
  - intros fname Hno. destruct (matches "." fname) eqn:M; [|reflexivity].
    apply matches_dot in M as [stem ->]. exfalso. apply Hno.
    apply in_or_app. right. now left.
Qed.

Lemma empty_ext_normalizes_to_dot_witness :
  normalize_ext "  " = lit "."
  /\ (forall fname, matches (normalize_ext "  ") fname = true
                    <-> exists stem, fname = stem ++ lit ".")
  /\ (forall fname, no_extension fname ->
                    matches (normalize_ext "  ") fname = false).
Proof. apply (@empty_ext_normalizes_to_dot "  "). reflexivity. Defined.

Lemma new_name_of_split old_ext new_ext stem tail :
  old_ext <> [] -> length tail = length old_ext ->
  new_name_of old_ext new_ext (stem ++ tail) = stem ++ new_ext.
Proof.
  intros Hne Hlen. unfold new_name_of, slice_to_neg.
  destruct (length old_ext) as [|k] eqn:E.
  - destruct old_ext; [contradiction | discriminate].
  - rewrite length_app, Hlen.
    replace (length stem + S k - S k) with (length stem + 0) by lia.
    rewrite firstn_app_2. simpl. now rewrite app_nil_r.
Qed.

(** *** The wider alphabet *)

Lemma wide_lower s : Wide.lower (Wide.inj s) = Wide.inj (lower s).
Proof. induction s as [|c s IH]; simpl; [reflexivity | now rewrite IH]. Qed.

Lemma wide_lstrip s : Wide.lstrip (Wide.inj s) = Wide.inj (lstrip s).
Proof.
  induction s as [|c s IH]; simpl; [reflexivity|].
  destruct (is_space c); [exact IH | reflexivity].
Qed.

Lemma wide_strip s : Wide.strip (Wide.inj s) = Wide.inj (strip s).
Proof.
  unfold Wide.strip, Wide.rstrip, strip, rstrip.
  rewrite wide_lstrip.
  replace (rev (Wide.inj (lstrip s))) with (Wide.inj (rev (lstrip s)))
    by apply map_rev.
  rewrite wide_lstrip. symmetry. apply map_rev.
Qed.

Lemma wide_str_eqb a : forall b,
  Wide.str_eqb (Wide.inj a) (Wide.inj b) = str_eqb a b.
Proof.
  induction a as [|x a IH]; intros [|y b]; simpl; try reflexivity.
  now rewrite IH.
Qed.

Lemma wide_startswith p : forall s,
  Wide.startswith (Wide.inj s) (Wide.inj p) = startswith s p.
Proof.
  induction p as [|y p IH]; intros [|x s]; simpl; try reflexivity.
  now rewrite IH.
Qed.

Lemma wide_endswith s p :
  Wide.endswith (Wide.inj s) (Wide.inj p) = endswith s p.
Proof.
  unfold Wide.endswith, endswith, Wide.inj.
  rewrite !length_map, skipn_map. f_equal. apply wide_str_eqb.
Qed.

(** On strings of code points below 256 the wider functions are the ones
    of the script's embedding. *)
Lemma wide_normalize_ext ext :
  Wide.normalize_ext (Wide.inj ext) = Wide.inj (normalize_ext ext).
Proof.
  unfold Wide.normalize_ext, normalize_ext.
  rewrite wide_strip, wide_lower, wide_startswith.
  destruct (startswith _ _); [reflexivity|].
  unfold Wide.inj. now rewrite map_app.
Qed.

Lemma wide_matches old_ext fname :
  Wide.matches (Wide.inj old_ext) (Wide.inj fname) = matches old_ext fname.
Proof. unfold Wide.matches, matches. now rewrite wide_lower, wide_endswith. Qed.

Lemma wide_new_name_of old_ext new_ext fname :
  Wide.new_name_of (Wide.inj old_ext) (Wide.inj new_ext) (Wide.inj fname)
  = Wide.inj (new_name_of old_ext new_ext fname).
Proof.
  unfold Wide.new_name_of, new_name_of, Wide.slice_to_neg, slice_to_neg, Wide.inj.
  rewrite !length_map, map_app.
  destruct (length old_ext); [reflexivity|]. now rewrite firstn_map.
Qed.



(** ** The state-changing calls *)


Lemma os_rename_stdout h a b w :
  stdout (snd (os_rename h a b w)) = stdout w.
Proof.
  unfold os_rename.
  repeat match goal with
         | |- context [match ?x with _ => _ end] => destruct x
         end; reflexivity.
Qed.

Lemma os_rename_dirs h a b w :
  dirs (snd (os_rename h a b w)) = dirs w.
Proof.
  unfold os_rename.
  repeat match goal with
         | |- context [match ?x with _ => _ end] => destruct x
         end; reflexivity.
Qed.


(** ** [os.path.normcase] *)

Lemma lower_char_slash_swap c :
  lower_char (if ascii_eqb c slash then backslash else c)
  = (if ascii_eqb (lower_char c) slash then backslash else lower_char c).
Proof. each_char c; reflexivity. Qed.


Lemma normcase_nt_of_lower a :
  normcase Nt a
  = map (fun d => if ascii_eqb d slash then backslash else d) (lower a).
Proof.
  unfold normcase, lower. rewrite !map_map. apply map_ext.
  apply lower_char_slash_swap.
Qed.

Lemma normcase_nt_ci a b :
  ci_identical a b -> normcase Nt a = normcase Nt b.
Proof.
  unfold ci_identical. intro E. rewrite !normcase_nt_of_lower. now rewrite E.
Qed.

(** ** [safe_rename] *)



(** ** The guard of [rename_extensions] *)

(** C5: when [path] is no existing directory the call raises
    [NotADirectoryError] and leaves the state as it was: no file is moved
    and no [os.rename] is issued. *)
Theorem rename_extensions_not_a_directory h path old_ext new_ext w
    (Hnot : isdir h w path = false) :
  rename_extensions h path old_ext new_ext w
  = (Raise (NotADirectoryError (lit "Not a directory: " ++ path)), w).
Proof. unfold rename_extensions. rewrite Hnot. reflexivity. Qed.

Lemma rename_extensions_not_a_directory_witness :
  isdir linux w_collision "root/x.old" = false
  /\ rename_extensions linux "root/x.old" "old" "new" w_collision
     = (Raise (NotADirectoryError (lit "Not a directory: root/x.old")),
        w_collision).
Proof.
  split; [reflexivity|].
  apply (@rename_extensions_not_a_directory linux "root/x.old" "old" "new"
           w_collision).
  reflexivity.
Defined.

(** ** Walking the tree *)

Lemma tree_ind' (P : tree -> Prop) :
  (forall subs, Forall (fun e => P (snd e)) subs -> P (Dir subs)) ->
  forall t, P t.
Proof.
  intro H. fix IH 1. intros [subs]. apply H.
  induction subs as [|[n t'] l IHl]; constructor; [apply IH | exact IHl].
Qed.

Lemma walk_unfold h body subs c top w :
  walk_bottom_up h body (Dir subs) c top w
  = bind (walk_subs h body c top subs)
         (fun _ => body top (map fst subs) (listing w c)) w.
Proof. reflexivity. Qed.

Lemma walk_subs_cons h body c top d t' l :
  walk_subs h body c top ((d, t') :: l)
  = bind (walk_bottom_up h body t' (c ++ [d]) (join (flavour h) top d))
         (fun _ => walk_subs h body c top l).
Proof. reflexivity. Qed.

Lemma bind_snd {A B} (m : M A) (k : A -> M B) w :
  snd (bind m k w)
  = match fst (m w) with
    | Ret a => snd (k a (snd (m w)))
    | Raise _ => snd (m w)
    end.
Proof. unfold bind. destruct (m w) as [[a|e] w1]; reflexivity. Qed.

Lemma bind_preserves {A B} (Inv : world -> Prop) (m : M A) (k : A -> M B) w :
  Inv (snd (m w)) -> (forall a w1, Inv w1 -> Inv (snd (k a w1))) ->
  Inv (snd (bind m k w)).
Proof.
  intros Hm Hk. rewrite bind_snd. destruct (fst (m w)); auto.
Qed.

Lemma for_each_preserves {A} (Inv : world -> Prop) (P : A -> Prop)
    (body : A -> M unit) :
  (forall x w, P x -> Inv w -> Inv (snd (body x w))) ->
  forall xs w, Forall P xs -> Inv w -> Inv (snd (for_each xs body w)).
Proof.
  intros Hb xs. induction xs as [|x xs IH]; intros w HP HI; simpl; [exact HI|].
  inversion HP; subst. apply bind_preserves; auto.
Qed.

(** An invariant of the state that every run of the body keeps, on a
    listing taken in a state that had it, is kept by the whole walk. *)
Lemma walk_preserves h (Inv : world -> Prop) (Good : list str -> Prop) body :
  (forall w c, Inv w -> Good (listing w c)) ->
  (forall root dn fs w, Good fs -> Inv w -> Inv (snd (body root dn fs w))) ->
  forall t c top w, Inv w -> Inv (snd (walk_bottom_up h body t c top w)).
Proof.
  intros Hg Hb t. induction t as [subs IH] using tree_ind'.
  intros c top w HI. rewrite walk_unfold.
  apply bind_preserves; [|intros [] w1 H1; apply Hb; auto].
  clear Hg. revert w HI.
  induction IH as [|[d t'] l Ht' _ IHl]; intros w HI; [exact HI|].
  rewrite walk_subs_cons. apply bind_preserves; [apply Ht', HI|].
  intros _ w1 H1. now apply IHl.
Qed.

(** ** The collision check *)

(** C2: the check of line 59 takes a file for a collision with itself.
    Where [os.path] is [posixpath] and the volume ignores case (macOS),
    take [root/FILE.OLD] and the extensions [old] and [OLD].  The
    destination [root/FILE.old] exists, because it is the file itself, and
    it is the source with case ignored: a case-only rename.  Line 59
    exempts such a destination by comparing [os.path.normcase] of the two
    paths, and [posixpath.normcase] changes nothing, so the exemption does
    not apply: the file is skipped with the warning "target exists" and no
    [os.rename] is issued. *)
Lemma case_only_rename_skipped_under_posixpath :
  matches (normalize_ext "old") "FILE.OLD" = true
  /\ new_name_of (normalize_ext "old") (normalize_ext "OLD") "FILE.OLD"
     = lit "FILE.old"
  /\ exists_ macos w_single "root/FILE.old" = true
  /\ ci_identical "root/FILE.OLD" "root/FILE.old"
  /\ loop_body macos (normalize_ext "old") (normalize_ext "OLD")
               "root" "FILE.OLD" w_single
     = (Ret tt, World (dirs w_single) (files w_single)
                      [warning "root/FILE.OLD"] []).
Proof. repeat split. Qed.

(** X16: under [ntpath], on a file system without symbolic links, the
    check of line 59 does what it is meant to do.  For a selected
    file, when an entry exists at the destination and [os.path.normcase]
    tells the two paths apart, the file is skipped: one warning is printed,
    nothing else changes, and the loop goes on with the next file.  When
    the destination is the source with case ignored, or when no entry
    exists there, the file goes to [safe_rename]. *)
Theorem collision_check_ntpath h oe ne root fname rest w
    (Hnt : flavour h = Nt)
    (Hsel : matches oe fname = true) :
  let old_path := join Nt root fname in
  let new_path := join Nt root (new_name_of oe ne fname) in
  let body := loop_body h oe ne root in
  let w_skip := World (dirs w) (files w)
                      (stdout w ++ [warning old_path]) (renames w) in
  (exists_ h w new_path = true ->
   normcase Nt old_path <> normcase Nt new_path ->
     body fname w = (Ret tt, w_skip)
     /\ for_each (fname :: rest) body w = for_each rest body w_skip)
  /\ (ci_identical old_path new_path ->
        body fname w = safe_rename h old_path new_path w)
  /\ (exists_ h w new_path = false ->
        body fname w = safe_rename h old_path new_path w).
Proof.
  cbv zeta. split; [|split].
  - intros He Hn. apply str_eqb_neq in Hn.
    assert (E : loop_body h oe ne root fname w
                = (Ret tt, World (dirs w) (files w)
                     (stdout w ++ [warning (join Nt root fname)])
                     (renames w))).
    { unfold loop_body, collides. rewrite Hsel, Hnt, He, Hn. reflexivity. }
    split; [exact E|].
    simpl. unfold bind. rewrite E. reflexivity.
  - intro Hci. apply normcase_nt_ci in Hci. apply str_eqb_eq in Hci.
    unfold loop_body, collides. rewrite Hsel, Hnt, Hci, andb_false_r.
    reflexivity.
  - intro He. unfold loop_body, collides. rewrite Hsel, Hnt, He. reflexivity.
Qed.

Lemma collision_check_ntpath_witness :
  flavour windows = Nt
  /\ matches ".old" "x.old" = true
  /\ loop_body windows ".old" ".new" "root" "x.old" w_collision
     = (Ret tt, World (dirs w_collision) (files w_collision)
                      [warning "root\x.old"] []).
Proof.
  split; [reflexivity|]. split; [reflexivity|].
  apply (@collision_check_ntpath windows ".old" ".new" "root" "x.old" []
           w_collision);
    [reflexivity | reflexivity | reflexivity | vm_compute; discriminate].
Defined.

(** ** What the caller gets *)

Lemma only_warnings_refl h oe w : only_warnings h oe w w.
Proof. exists []. simpl. rewrite app_nil_r. split; [reflexivity | constructor]. Qed.

Lemma only_warnings_trans h oe w1 w2 w3 :
  only_warnings h oe w1 w2 -> only_warnings h oe w2 w3 ->
  only_warnings h oe w1 w3.
Proof.
  intros (p1 & E1 & F1) (p2 & E2 & F2). exists (p1 ++ p2). split.
  - rewrite E2, E1, map_app, app_assoc. reflexivity.
  - apply Forall_app. now split.
Qed.

Lemma safe_rename_stdout h old new w :
  stdout (snd (safe_rename h old new w)) = stdout w.
Proof.
  unfold safe_rename.
  destruct (str_eqb _ _); [|apply os_rename_stdout].
  rewrite bind_snd. destruct (fst _).
  - rewrite !os_rename_stdout. reflexivity.
  - apply os_rename_stdout.
Qed.

Lemma loop_body_stdout h oe ne root fname w :
  stdout (snd (loop_body h oe ne root fname w))
  = stdout w
    ++ (if matches oe fname
           && collides h w (join (flavour h) root fname)
                (join (flavour h) root (new_name_of oe ne fname))
        then [warning (join (flavour h) root fname)] else []).
Proof.
  unfold loop_body. destruct (matches oe fname) eqn:Hm; simpl.
  - destruct (collides _ _ _ _); simpl; [reflexivity|].
    rewrite safe_rename_stdout, app_nil_r. reflexivity.
  - now rewrite app_nil_r.
Qed.

Lemma loop_body_only_warnings h oe ne root fname w0 w :
  only_warnings h oe w0 w ->
  only_warnings h oe w0 (snd (loop_body h oe ne root fname w)).
Proof.
  intro H. eapply only_warnings_trans; [exact H|].
  pose proof (loop_body_stdout h oe ne root fname w) as E.
  destruct (matches oe fname) eqn:Hm; simpl in E.
  - destruct (collides _ _ _ _).
    + exists [join (flavour h) root fname]. split; [exact E|].
      constructor; [|constructor]. now exists root, fname.
    + exists []. split; [exact E | constructor].
  - exists []. split; [exact E | constructor].
Qed.

Lemma rename_extensions_only_warnings h path old_ext new_ext w :
  only_warnings h (normalize_ext old_ext) w
    (snd (rename_extensions h path old_ext new_ext w)).
Proof.
  unfold rename_extensions.
  destruct (isdir h w path); simpl; [|apply only_warnings_refl].
  apply bind_preserves; [|intros _ w1 H1; exact H1].
  unfold os_walk.
  destruct (resolve h w path) as [[c|c x]|]; try apply only_warnings_refl.
  destruct (subtree (dirs w) c) as [t|]; try apply only_warnings_refl.
  apply walk_preserves with (Good := fun _ => True); auto.
  - intros root dn fs w1 _ H1.
    apply for_each_preserves with (P := fun _ => True); auto.
    + intros x w2 _ H2. now apply loop_body_only_warnings.
    + apply Forall_forall. auto.
  - apply only_warnings_refl.
Qed.

Lemma rename_extensions_result h path old_ext new_ext w :
  fst (rename_extensions h path old_ext new_ext w) = Ret PyNone
  \/ exists e, fst (rename_extensions h path old_ext new_ext w) = Raise e.
Proof.
  unfold rename_extensions.
  destruct (isdir h w path); simpl; [|right; eauto].
  unfold bind. destruct (os_walk _ _ _ _) as [[[]|e] w1]; simpl; eauto.
Qed.

(** ** The call, unfolded *)

Lemma rename_extensions_walk h path old_ext new_ext w c t :
  resolve h w path = Some (TDir c) -> subtree (dirs w) c = Some t ->
  rename_extensions h path old_ext new_ext w
  = bind (walk_bottom_up h
            (dir_body h (normalize_ext old_ext) (normalize_ext new_ext))
            t c path)
         (fun _ => ret PyNone) w.
Proof.
  intros R S. unfold rename_extensions, isdir, os_walk, bind.
  rewrite R, S. reflexivity.
Qed.

Lemma rename_extensions_no_tree h path old_ext new_ext w c :
  resolve h w path = Some (TDir c) -> subtree (dirs w) c = None ->
  rename_extensions h path old_ext new_ext w = (Ret PyNone, w).
Proof.
  intros R S. unfold rename_extensions, isdir, os_walk, bind.
  rewrite R, S. reflexivity.
Qed.

Lemma rename_extensions_raises h path old_ext new_ext w :
  (forall c, resolve h w path <> Some (TDir c)) ->
  exists e, fst (rename_extensions h path old_ext new_ext w) = Raise e.
Proof.
  intro N. unfold rename_extensions, isdir.
  destruct (resolve h w path) as [[c|c x]|]; simpl; eauto.
  now destruct (N c).
Qed.

(** ** The turns of a call *)

Lemma chained_app h oe ne ts1 : forall w w1 ts2 w2,
  chained h oe ne w ts1 w1 -> chained h oe ne w1 ts2 w2 ->
  chained h oe ne w (ts1 ++ ts2) w2.
Proof.
  induction ts1 as [|[[root x] w0] ts1 IH]; simpl; intros w w1 ts2 w2 C1 C2.
  - now subst w1.
  - destruct C1 as [-> C1]. split; [reflexivity|]. now apply IH with w1.
Qed.

Lemma skipped_paths_app h oe ne ts1 ts2 :
  skipped_paths h oe ne (ts1 ++ ts2)
  = skipped_paths h oe ne ts1 ++ skipped_paths h oe ne ts2.
Proof. unfold skipped_paths. now rewrite filter_app, map_app. Qed.

Lemma traced_nil h oe ne w : traced h oe ne w [] w.
Proof. split; [reflexivity|]. simpl. now rewrite app_nil_r. Qed.

Lemma traced_app h oe ne w ts1 w1 ts2 w2 :
  traced h oe ne w ts1 w1 -> traced h oe ne w1 ts2 w2 ->
  traced h oe ne w (ts1 ++ ts2) w2.
Proof.
  intros [C1 S1] [C2 S2]. split; [now apply chained_app with w1|].
  rewrite S2, S1, skipped_paths_app, map_app, app_assoc. reflexivity.
Qed.

Lemma turn_traced h oe ne root x w :
  traced h oe ne w [(root, x, w)] (snd (loop_body h oe ne root x w)).
Proof.
  split; [simpl; auto|].
  rewrite loop_body_stdout. unfold skipped_paths. simpl.
  destruct (matches oe x && collides h w _ _); reflexivity.
Qed.

Lemma loop_traced h oe ne root fs : forall w,
  traced h oe ne w (loop_turns h oe ne root fs w)
    (snd (for_each fs (loop_body h oe ne root) w)).
Proof.
  induction fs as [|x fs IH]; intro w; [apply traced_nil|].
  simpl. unfold bind.
  pose proof (turn_traced h oe ne root x w) as T.
  destruct (loop_body h oe ne root x w) as [[[]|e] w1]; simpl in T |- *.
  - apply (traced_app T (IH w1)).
  - exact T.
Qed.

Lemma walk_turns_unfold h oe ne subs c top w :
  walk_turns h oe ne (Dir subs) c top w
  = subs_turns h oe ne c top subs w
    ++ match walk_subs h (dir_body h oe ne) c top subs w with
       | (Ret _, wb) => loop_turns h oe ne top (listing w c) wb
       | (Raise _, _) => []
       end.
Proof. reflexivity. Qed.

Lemma subs_turns_cons h oe ne c top d t' l w :
  subs_turns h oe ne c top ((d, t') :: l) w
  = walk_turns h oe ne t' (c ++ [d]) (join (flavour h) top d) w
    ++ match walk_bottom_up h (dir_body h oe ne) t' (c ++ [d])
               (join (flavour h) top d) w with
       | (Ret _, w2) => subs_turns h oe ne c top l w2
       | (Raise _, _) => []
       end.
Proof. reflexivity. Qed.

(** The turns of a walk are the turns the walk takes: they lead from the
    state before it to the state after it, and the walk prints one warning
    per skipped collision among them, in their order. *)
Lemma walk_traced h oe ne t : forall c top w,
  traced h oe ne w (walk_turns h oe ne t c top w)
    (snd (walk_bottom_up h (dir_body h oe ne) t c top w)).
Proof.
  induction t as [subs IH] using tree_ind'. intros c top w.
  assert (Sub : forall w1,
             traced h oe ne w1 (subs_turns h oe ne c top subs w1)
               (snd (walk_subs h (dir_body h oe ne) c top subs w1))).
  { induction IH as [|[d t'] l Ht' _ IHl]; intro w1; [apply traced_nil|].
    rewrite subs_turns_cons, walk_subs_cons. unfold bind.
    pose proof (Ht' (c ++ [d]) (join (flavour h) top d) w1) as T.
    simpl in T.
    destruct (walk_bottom_up h (dir_body h oe ne) t' (c ++ [d])
                (join (flavour h) top d) w1) as [[[]|e] w2]; simpl in T |- *.
    - apply (traced_app T (IHl w2)).
    - rewrite app_nil_r. exact T. }
  rewrite walk_turns_unfold, walk_unfold. unfold bind.
  pose proof (Sub w) as T.
  destruct (walk_subs h (dir_body h oe ne) c top subs w) as [[[]|e] wb];
    simpl in T |- *.
  - apply (traced_app T). unfold dir_body. apply loop_traced.
  - rewrite app_nil_r. exact T.
Qed.

Lemma call_traced h path old_ext new_ext w :
  traced h (normalize_ext old_ext) (normalize_ext new_ext) w
    (call_turns h path old_ext new_ext w)
    (snd (rename_extensions h path old_ext new_ext w)).
Proof.
  unfold call_turns.
  destruct (resolve h w path) as [[c|c x]|] eqn:Rp.
  - destruct (subtree (dirs w) c) as [t|] eqn:St.
    + rewrite (@rename_extensions_walk h path old_ext new_ext w c t Rp St).
      rewrite bind_snd.
      pose proof (walk_traced h (normalize_ext old_ext) (normalize_ext new_ext)
                    t c path w) as T.
      destruct (fst _); exact T.
    + rewrite (@rename_extensions_no_tree h path old_ext new_ext w c Rp St).
      apply traced_nil.
  - unfold rename_extensions, isdir. rewrite Rp. apply traced_nil.
  - unfold rename_extensions, isdir. rewrite Rp. apply traced_nil.
Qed.

(** C1, as stated, fails: with [root/x.new] in the way of [root/x.old]
    the call skips one file and prints one warning, and what it returns is
    [None], not a report with one entry. *)
Lemma rename_extensions_returns_none :
  let r := rename_extensions linux "root" "old" "new" w_collision in
  fst r = Ret PyNone
  /\ printed_between w_collision (snd r) = [warning "root/x.old"]
  /\ ~ returns_skip_report (fst r) w_collision (snd r).
Proof.
  cbv zeta. split; [reflexivity|]. split; [reflexivity|].
  intros (report & E & _). vm_compute in E. discriminate.
Qed.

(** C1, amended: a call returns [None] when it does not raise; no report
    is handed to the caller.  Skips are printed instead.  Take the turns of
    the inner loop in the order in which the walk reaches the files (each
    turn in the state the turn before it left): over the whole call the
    output grows by exactly one line per turn whose file is selected and
    collides, "[WARN] Skipping <source path>: target exists", in the order
    of the turns, and by nothing else. *)
Theorem rename_extensions_reports_by_printing h path old_ext new_ext w :
  let oe := normalize_ext old_ext in
  let ne := normalize_ext new_ext in
  let r := rename_extensions h path old_ext new_ext w in
  let ts := call_turns h path old_ext new_ext w in
  (fst r = Ret PyNone \/ exists e, fst r = Raise e)
  /\ chained h oe ne w ts (snd r)
  /\ printed_between w (snd r) = map warning (skipped_paths h oe ne ts).
Proof.
  cbv zeta. split; [apply rename_extensions_result|].
  destruct (call_traced h path old_ext new_ext w) as [C S].
  split; [exact C|].
  unfold printed_between.
  rewrite S, skipn_app, skipn_all, Nat.sub_diag. reflexivity.
Qed.

(** ** Paths as strings *)

Lemma split_path_nonempty f p : split_path f p <> [].
Proof.
  destruct p as [|c p]; simpl; [discriminate|].
  destruct (is_sep f c); [discriminate|].
  destruct (split_path f p); discriminate.
Qed.

Lemma split_path_app_sep f a s b :
  is_sep f s = true ->
  split_path f (a ++ s :: b) = split_path f a ++ split_path f b.
Proof.
  intro Hs. induction a as [|c a IH]; simpl.
  - now rewrite Hs.
  - destruct (is_sep f c); rewrite IH; [reflexivity|].
    pose proof (split_path_nonempty f a) as N.
    destruct (split_path f a); [contradiction | reflexivity].
Qed.

Lemma split_path_plain f b : plain f b = true -> split_path f b = [b].
Proof.
  induction b as [|c b IH]; simpl; [reflexivity|].
  intro H. apply andb_true_iff in H as [Hc Hb].
  apply negb_true_iff in Hc. rewrite Hc, (IH Hb). reflexivity.
Qed.

Lemma split_path_components f p : Forall (fun x => plain f x = true) (split_path f p).
Proof.
  induction p as [|c p IH]; simpl.
  - repeat constructor.
  - destruct (is_sep f c) eqn:E.
    + constructor; [reflexivity | exact IH].
    + destruct (split_path f p) as [|comp rest].
      * repeat constructor. simpl. now rewrite E.
      * inversion IH; subst. constructor; [|assumption].
        simpl. now rewrite E.
Qed.

Lemma last_app_nonempty {A} (l1 l2 : list A) d :
  l2 <> [] -> last (l1 ++ l2) d = last l2 d.
Proof.
  intro N. induction l1 as [|x l1 IH]; [reflexivity|].
  simpl. rewrite IH. destruct (l1 ++ l2) eqn:E; [|reflexivity].
  apply app_eq_nil in E as [_ E]. contradiction.
Qed.

Lemma last_in {A} (l : list A) d : l <> [] -> In (last l d) l.
Proof.
  induction l as [|x l IH]; [congruence|]. intros _.
  destruct l as [|y l]; [now left|]. right. apply IH. discriminate.
Qed.

Lemma split_path_single f p x : split_path f p = [x] -> p = x.
Proof.
  revert x. induction p as [|c p IH]; simpl; intros x E.
  - now injection E as <-.
  - pose proof (split_path_nonempty f p) as N.
    destruct (is_sep f c).
    + injection E as _ E. contradiction.
    + destruct (split_path f p) as [|k [|]]; try discriminate; [contradiction|].
      injection E as <-. f_equal. now apply IH.
Qed.

Lemma last_split_suffix f p :
  exists pre, p = pre ++ last (split_path f p) [].
Proof.
  induction p as [|c p [pre IH]]; simpl.
  - now exists [].
  - pose proof (split_path_nonempty f p) as N.
    destruct (is_sep f c).
    + exists (c :: pre). destruct (split_path f p) eqn:E; [contradiction|].
      simpl. f_equal. exact IH.
    + destruct (split_path f p) as [|comp [|r rest]] eqn:E; [contradiction| |].
      * exists []. simpl. f_equal. now apply split_path_single with f.
      * exists (c :: pre). simpl in *. now f_equal.
Qed.

Lemma last_split_plain f p : plain f (last (split_path f p) []) = true.
Proof.
  pose proof (split_path_components f p) as F.
  rewrite Forall_forall in F. apply F, last_in, split_path_nonempty.
Qed.

Lemma last_split_join f a b :
  last (split_path f (join f a b)) [] = last (split_path f b) [].
Proof.
  assert (J : join f a b = b
              \/ (exists a' s, is_sep f s = true /\ join f a b = a' ++ s :: b)).
  { unfold join.
    assert (K : match rev a with
                | [] => b
                | l :: _ => if is_sep f l then a ++ b else a ++ sep f :: b
                end = b
                \/ exists a' s, is_sep f s = true /\
                     match rev a with
                     | [] => b
                     | l :: _ => if is_sep f l then a ++ b else a ++ sep f :: b
                     end = a' ++ s :: b).
    { destruct (rev a) as [|l r] eqn:E; [now left|]. right.
      destruct (is_sep f l) eqn:El.
      - exists (rev r), l. split; [exact El|].
        assert (a = rev r ++ [l]).
        { rewrite <- (rev_involutive a), E. reflexivity. }
        subst a. rewrite <- app_assoc. reflexivity.
      - exists a, (sep f). split; [destruct f; reflexivity | reflexivity]. }
    destruct b as [|c b']; [exact K|].
    destruct (is_sep f c); [now left | exact K]. }
  destruct J as [-> | (a' & s & Hs & ->)]; [reflexivity|].
  rewrite split_path_app_sep by exact Hs.
  apply last_app_nonempty, split_path_nonempty.
Qed.

Lemma normchar_sep c : is_sep Nt (normchar c) = is_sep Nt c.
Proof. each_char c; reflexivity. Qed.

Lemma normchar_lower c : is_sep Nt c = false -> normchar c = lower_char c.
Proof. each_char c; intro H; try reflexivity; discriminate H. Qed.

Lemma split_path_map f g p :
  (forall c, is_sep f (g c) = is_sep f c) ->
  split_path f (map g p) = map (map g) (split_path f p).
Proof.
  intro Hg. induction p as [|c p IH]; simpl; [reflexivity|].
  rewrite Hg, IH. destruct (is_sep f c); [reflexivity|].
  destruct (split_path f p); reflexivity.
Qed.

Lemma last_map {A B} (g : A -> B) l d : last (map g l) (g d) = g (last l d).
Proof.
  induction l as [|x l IH]; [reflexivity|].
  simpl. destruct l; [reflexivity | exact IH].
Qed.

Lemma normcase_nt_map p : normcase Nt p = map normchar p.
Proof. unfold normcase, lower. now rewrite map_map. Qed.

Lemma plain_nt_lower x : plain Nt x = true -> map normchar x = lower x.
Proof.
  intro H. apply map_ext_in. intros c Hc. apply normchar_lower.
  unfold plain in H. rewrite forallb_forall in H.
  specialize (H c Hc). now apply negb_true_iff in H.
Qed.

(** Paths that [os.path.normcase] identifies end in names that are the same
    when case is ignored. *)
Lemma normcase_last f a b :
  normcase f a = normcase f b ->
  lower (last (split_path f a) []) = lower (last (split_path f b) []).
Proof.
  destruct f; simpl; [now intros ->|].
  intro E. fold (normcase Nt a) in E. fold (normcase Nt b) in E.
  rewrite !normcase_nt_map in E.
  apply (f_equal (fun p => last (split_path Nt p) [])) in E.
  rewrite !(split_path_map Nt normchar _ normchar_sep) in E.
  pose proof (last_map (map normchar) (split_path Nt a) []) as La.
  pose proof (last_map (map normchar) (split_path Nt b) []) as Lb.
  rewrite <- !plain_nt_lower by apply last_split_plain.
  etransitivity; [symmetry; exact La|].
  etransitivity; [exact E | exact Lb].
Qed.

(** ** Names of directory entries *)

Lemma name_eqb_refl h x : name_eqb h x x = true.
Proof. unfold name_eqb. destruct (case_sensitive h); apply str_eqb_refl. Qed.

Lemma name_eqb_lower h a b : name_eqb h a b = true -> lower a = lower b.
Proof.
  unfold name_eqb. destruct (case_sensitive h); intro E; apply str_eqb_eq in E;
    congruence.
Qed.

Lemma name_eqb_length h a b : name_eqb h a b = true -> length a = length b.
Proof.
  intro E. apply name_eqb_lower in E.
  rewrite <- (lower_length a), <- (lower_length b). now rewrite E.
Qed.

Lemma matches_lower oe a b : lower a = lower b -> matches oe a = matches oe b.
Proof. unfold matches. now intros ->. Qed.

Lemma path_eqb_eq a : forall b, path_eqb a b = true <-> a = b.
Proof.
  induction a as [|x a IH]; intros [|y b]; simpl; split; intro H;
    try reflexivity; try discriminate.
  - apply andb_true_iff in H as [H1 H2].
    apply str_eqb_eq in H1. apply IH in H2. congruence.
  - injection H as -> ->. rewrite str_eqb_refl. simpl. now apply IH.
Qed.

Lemma path_eqb_refl a : path_eqb a a = true.
Proof. now apply path_eqb_eq. Qed.

(** ** Path resolution *)

Lemma resolve_from_name h top comps : forall cur c x,
  resolve_from h top cur comps = Some (TName c x) -> x = last comps [].
Proof.
  induction comps as [|y rest IH]; intros cur c x; simpl; [discriminate|].
  assert (D : forall cur', resolve_from h top cur' rest = Some (TName c x) ->
                           x = match rest with [] => y | _ :: _ => last rest [] end).
  { intros cur' H. pose proof (IH _ _ _ H) as ->.
    destruct rest; [discriminate H | reflexivity]. }
  destruct (is_dot y); [apply D|].
  destruct (is_dotdot y); [apply D|].
  destruct (subtree top cur); [|discriminate].
  destruct (find_sub h t y) as [[d t']|]; [apply D|].
  destruct rest; [|discriminate]. now intros [= _ ->].
Qed.

Lemma resolve_name h w p c x :
  resolve h w p = Some (TName c x) -> x = last (split_path (flavour h) p) [].
Proof.
  unfold resolve. destruct p; [discriminate|]. apply resolve_from_name.
Qed.

Lemma resolve_from_one h top cur b c x :
  resolve_from h top cur [b] = Some (TName c x) -> c = cur /\ x = b.
Proof.
  simpl. destruct (is_dot b); [discriminate|].
  destruct (is_dotdot b); [discriminate|].
  destruct (subtree top cur); [|discriminate].
  destruct (find_sub h t b) as [[d t']|]; [discriminate|].
  now intros [= -> ->].
Qed.

Lemma resolve_from_app h top l1 : forall cur l2,
  l2 <> [] ->
  resolve_from h top cur (l1 ++ l2)
  = match resolve_from h top cur l1 with
    | Some (TDir c) => resolve_from h top c l2
    | _ => None
    end.
Proof.
  induction l1 as [|y l1 IH]; intros cur l2 N; [reflexivity|].
  simpl. destruct (is_dot y); [now apply IH|].
  destruct (is_dotdot y); [now apply IH|].
  destruct (subtree top cur); [|reflexivity].
  destruct (find_sub h t y) as [[d t']|]; [now apply IH|].
  destruct l1; simpl; [|reflexivity].
  destruct l2; [contradiction | reflexivity].
Qed.

(** ** [os.rename] *)

Lemma os_rename_effect h old new w :
  (fst (os_rename h old new w) = Ret tt
   /\ rename_effect h w old new (files (snd (os_rename h old new w))))
  \/ ((exists e, fst (os_rename h old new w) = Raise e)
      /\ files (snd (os_rename h old new w)) = files w).
Proof.
  unfold os_rename.
  change (resolve h (log_rename old new w) old) with (resolve h w old).
  change (resolve h (log_rename old new w) new) with (resolve h w new).
  change (files (log_rename old new w)) with (files w).
  destruct (resolve h w old) as [[c|c x]|] eqn:Ro;
    try (right; split; [eexists; reflexivity | reflexivity]).
  destruct (find_file h (files w) c x) as [src|] eqn:Fo;
    try (right; split; [eexists; reflexivity | reflexivity]).
  destruct (resolve h w new) as [[c'|c' y]|] eqn:Rn;
    try (right; split; [eexists; reflexivity | reflexivity]).
  assert (Ok : rename_effect h w old new
                 (File c' y (f_data src)
                  :: remove_entry h c' y (remove_entry h c x (files w)))).
  { exists c, x, src, c', y. auto. }
  destruct (find_file h (files w) c' y) eqn:Fn; [|left; split; [reflexivity | exact Ok]].
  destruct (path_eqb c c' && name_eqb h x y); [left; split; [reflexivity | exact Ok]|].
  destruct (flavour h); [left; split; [reflexivity | exact Ok]|].
  right; split; [eexists; reflexivity | reflexivity].
Qed.

Lemma os_rename_ret h old new w :
  fst (os_rename h old new w) = Ret tt ->
  rename_effect h w old new (files (snd (os_rename h old new w))).
Proof.
  intro R. destruct (os_rename_effect h old new w) as [[_ E] | [[e Re] _]];
    [exact E | congruence].
Qed.

Lemma resolve_same_dirs h w w' p : dirs w' = dirs w -> resolve h w' p = resolve h w p.
Proof. unfold resolve. now intros ->. Qed.

Lemma find_file_none_entry h fl c x e :
  find_file h fl c x = None -> In e fl -> is_entry h c x e = false.
Proof. intros F I. exact (find_none _ _ F e I). Qed.

Lemma in_remove_entry h c x fl e :
  In e (remove_entry h c x fl) <-> In e fl /\ is_entry h c x e = false.
Proof.
  unfold remove_entry. rewrite filter_In. now rewrite negb_true_iff.
Qed.

(** An entry that is neither the source nor the destination of an
    [os.rename] stays. *)
Lemma os_rename_keeps h old new w e :
  In e (files w) ->
  (forall c x, resolve h w old = Some (TName c x) -> is_entry h c x e = false) ->
  (forall c y, resolve h w new = Some (TName c y) -> is_entry h c y e = false) ->
  In e (files (snd (os_rename h old new w))).
Proof.
  intros I Hs Hd.
  destruct (os_rename_effect h old new w) as [[_ E] | [_ ->]]; [|exact I].
  destruct E as (c & x & src & c' & y & Ro & _ & Rn & ->).
  right. apply in_remove_entry. split; [|now apply Hd].
  apply in_remove_entry. split; [exact I | now apply Hs].
Qed.

(** ** Temporary names *)

Lemma files_max_bound fl e : In e fl -> length (f_name e) <= files_max fl.
Proof.
  induction fl as [|x fl IH]; simpl; [contradiction|].
  intros [-> | I]; [lia | specialize (IH I); lia].
Qed.

Lemma uuid4_length w :
  length (uuid4 w) = S (Nat.max (tree_max (dirs w)) (files_max (files w))).
Proof. unfold uuid4. apply repeat_length. Qed.

Lemma uuid4_fresh h w e : In e (files w) -> name_eqb h (f_name e) (uuid4 w) = false.
Proof.
  intro I. destruct (name_eqb h (f_name e) (uuid4 w)) eqn:E; [|reflexivity].
  apply name_eqb_length in E. rewrite uuid4_length in E.
  pose proof (files_max_bound _ _ I). lia.
Qed.

Lemma uuid4_chars w c : In c (uuid4 w) -> c = "f"%char.
Proof. unfold uuid4. apply repeat_spec. Qed.

Lemma uuid4_plain f w : plain f (uuid4 w) = true.
Proof.
  unfold plain. rewrite forallb_forall. intros c Hc.
  apply uuid4_chars in Hc. subst c. destruct f; reflexivity.
Qed.

Lemma uuid4_lower w : lower (uuid4 w) = uuid4 w.
Proof.
  unfold lower. rewrite <- (map_id (uuid4 w)) at 2.
  apply map_ext_in. intros c Hc. apply uuid4_chars in Hc. now subst c.
Qed.

Lemma temp_path_last h old w :
  last (split_path (flavour h) (temp_path h old w)) [] = uuid4 w.
Proof.
  unfold temp_path. rewrite last_split_join, split_path_plain; [reflexivity|].
  apply uuid4_plain.
Qed.

(** ** Files the script does not select *)

Lemma os_rename_plain h old new w :
  plain_names h w -> plain_names h (snd (os_rename h old new w)).
Proof.
  unfold plain_names. intro P.
  destruct (os_rename_effect h old new w) as [[_ E] | [_ ->]]; [|exact P].
  destruct E as (c & x & src & c' & y & _ & _ & Rn & ->).
  constructor.
  - simpl. apply resolve_name in Rn. subst y. apply last_split_plain.
  - rewrite Forall_forall in *. intros e I.
    apply in_remove_entry in I as [I _]. apply in_remove_entry in I as [I _].
    now apply P.
Qed.

Lemma safe_rename_plain h old new w :
  plain_names h w -> plain_names h (snd (safe_rename h old new w)).
Proof.
  intro P. unfold safe_rename.
  destruct (str_eqb _ _); [|now apply os_rename_plain].
  apply bind_preserves; [now apply os_rename_plain|].
  intros _ w1 P1. now apply os_rename_plain.
Qed.

Lemma not_entry_by_name h oe c x e :
  matches oe (f_name e) = false -> matches oe x = true ->
  is_entry h c x e = false.
Proof.
  intros Me Mx. unfold is_entry.
  destruct (name_eqb h (f_name e) x) eqn:E; [|apply andb_false_r].
  apply name_eqb_lower in E. rewrite (matches_lower oe _ _ E) in Me. congruence.
Qed.

Lemma collides_false h w old new :
  collides h w old new = false ->
  normcase (flavour h) old = normcase (flavour h) new
  \/ exists_ h w new = false.
Proof.
  unfold collides. intro C. apply andb_false_iff in C as [C | C]; [now right|].
  left. apply negb_false_iff in C. now apply str_eqb_eq.
Qed.

Lemma exists_false_entry h w new c y e :
  exists_ h w new = false -> resolve h w new = Some (TName c y) ->
  In e (files w) -> is_entry h c y e = false.
Proof.
  unfold exists_. intros X R I. rewrite R in X.
  destruct (find_file h (files w) c y) eqn:F; [discriminate|].
  now apply find_file_none_entry with (files w).
Qed.

(** [safe_rename] leaves alone every file that the script does not select,
    when the file it moves is a selected one and the collision check let it
    through. *)
Lemma safe_rename_keeps h oe old new w e :
  In e (files w) -> matches oe (f_name e) = false ->
  matches oe (basename_of h old) = true ->
  collides h w old new = false ->
  In e (files (snd (safe_rename h old new w))).
Proof.
  intros I Me Mo C. unfold safe_rename.
  assert (Src : forall c x, resolve h w old = Some (TName c x) ->
                            is_entry h c x e = false).
  { intros c x R. apply resolve_name in R. subst x.
    now apply not_entry_by_name with oe. }
  destruct (str_eqb _ _) eqn:N.
  - apply str_eqb_eq in N. fold (temp_path h old w).
    rewrite bind_snd.
    assert (I1 : In e (files (snd (os_rename h old (temp_path h old w) w)))).
    { apply os_rename_keeps; auto.
      intros c y R. apply resolve_name in R. rewrite temp_path_last in R.
      subst y. unfold is_entry. rewrite uuid4_fresh by exact I.
      apply andb_false_r. }
    destruct (fst _); [|exact I1].
    apply os_rename_keeps; auto.
    + intros c x R. apply resolve_name in R. rewrite temp_path_last in R.
      subst x. unfold is_entry. rewrite uuid4_fresh by exact I.
      apply andb_false_r.
    + intros c y R. apply resolve_name in R. subst y.
      apply not_entry_by_name with oe; [exact Me|].
      apply normcase_last in N. unfold basename_of in Mo.
      now rewrite <- (matches_lower oe _ _ N).
  - apply os_rename_keeps; auto.
    intros c y R. apply collides_false in C as [C | C].
    + apply str_eqb_eq in C. congruence.
    + now apply exists_false_entry with w new.
Qed.

Lemma basename_join h root fname :
  plain (flavour h) fname = true ->
  basename_of h (join (flavour h) root fname) = fname.
Proof.
  intro P. unfold basename_of. now rewrite last_split_join, split_path_plain.
Qed.

Lemma warned_selected_refl h oe w : warned_selected h oe w w.
Proof. exists []. simpl. rewrite app_nil_r. split; [reflexivity | constructor]. Qed.

Lemma warned_selected_trans h oe w1 w2 w3 :
  warned_selected h oe w1 w2 -> warned_selected h oe w2 w3 ->
  warned_selected h oe w1 w3.
Proof.
  intros (p1 & E1 & F1) (p2 & E2 & F2). exists (p1 ++ p2). split.
  - rewrite E2, E1, map_app, app_assoc. reflexivity.
  - apply Forall_app. now split.
Qed.

Lemma loop_body_warned h oe ne root fname w :
  plain (flavour h) fname = true ->
  warned_selected h oe w (snd (loop_body h oe ne root fname w)).
Proof.
  intro P. pose proof (loop_body_stdout h oe ne root fname w) as E.
  destruct (matches oe fname) eqn:Hm; simpl in E.
  - destruct (collides _ _ _ _).
    + exists [join (flavour h) root fname]. split; [exact E|].
      constructor; [|constructor]. now rewrite basename_join.
    + exists []. split; [exact E | constructor].
  - exists []. split; [exact E | constructor].
Qed.

Lemma loop_body_plain h oe ne root fname w :
  plain_names h w -> plain_names h (snd (loop_body h oe ne root fname w)).
Proof.
  intro P. unfold loop_body. destruct (matches oe fname); [|exact P].
  destruct (collides _ _ _ _); [exact P | now apply safe_rename_plain].
Qed.

Lemma loop_body_keeps h oe ne root fname w e :
  plain (flavour h) fname = true ->
  In e (files w) -> matches oe (f_name e) = false ->
  In e (files (snd (loop_body h oe ne root fname w))).
Proof.
  intros P I Me. unfold loop_body. destruct (matches oe fname) eqn:Hm; [|exact I].
  destruct (collides _ _ _ _) eqn:C; [exact I|].
  apply safe_rename_keeps with oe; auto.
  now rewrite basename_join.
Qed.

Lemma listing_plain h w c :
  plain_names h w -> Forall (fun x => plain (flavour h) x = true) (listing w c).
Proof.
  unfold plain_names, listing. rewrite !Forall_forall. intros P x I.
  apply in_map_iff in I as (e & <- & I). apply filter_In in I as [I _].
  now apply P.
Qed.

(** X15: on a file system of directories and regular files (no symbolic
    links), with no path separator inside a file name, a file whose name
    does not end, case ignored, with the normalised old extension is left as
    it is by the whole call, whether the call finishes or raises: the same
    entry, in the same directory, under the same name and with the same
    content, is there afterwards; every line printed is a warning about a
    path that ends in a selected name, and no path of this file ends in
    one, so none is about this file. *)
Theorem unselected_files_untouched h path old_ext new_ext w e
    (Hplain : plain_names h w)
    (Hin : In e (files w))
    (Hno : matches (normalize_ext old_ext) (f_name e) = false) :
  let w' := snd (rename_extensions h path old_ext new_ext w) in
  In e (files w')
  /\ warned_selected h (normalize_ext old_ext) w w'
  /\ (forall d, matches (normalize_ext old_ext)
                  (basename_of h (join (flavour h) d (f_name e))) = false).
Proof.
  cbv zeta.
  set (oe := normalize_ext old_ext) in *. set (ne := normalize_ext new_ext).
  set (Inv := fun w1 => In e (files w1) /\ plain_names h w1
                        /\ warned_selected h oe w w1).
  assert (I0 : Inv w).
  { split; [exact Hin|]. split; [exact Hplain | apply warned_selected_refl]. }
  assert (Hfinal : Inv (snd (rename_extensions h path old_ext new_ext w))).
  { unfold rename_extensions.
    destruct (isdir h w path); simpl; [|exact I0].
    apply bind_preserves; [|intros _ w1 H1; exact H1].
    unfold os_walk.
    destruct (resolve h w path) as [[c|c x]|]; try exact I0.
    destruct (subtree (dirs w) c) as [t|]; try exact I0.
    apply walk_preserves
      with (Good := Forall (fun x => plain (flavour h) x = true)); auto.
    - intros w1 c1 (_ & P1 & _). now apply listing_plain.
    - intros root dn fs w1 G H1.
      apply for_each_preserves
        with (P := fun x => plain (flavour h) x = true); auto.
      intros x w2 Px (I2 & P2 & W2). split; [|split].
      + now apply loop_body_keeps.
      + now apply loop_body_plain.
      + eapply warned_selected_trans; [exact W2|].
        now apply loop_body_warned. }
  destruct Hfinal as (H1 & _ & H3). split; [exact H1|]. split; [exact H3|].
  intro d. rewrite basename_join; [exact Hno|].
  unfold plain_names in Hplain. rewrite Forall_forall in Hplain.
  now apply Hplain.
Qed.

Lemma unselected_files_untouched_witness :
  let e := File [lit "root"] "doc.txt" 3 in
  let w' := snd (rename_extensions linux "root" "old" "new" w_collision) in
  In e (files w')
  /\ warned_selected linux (normalize_ext "old") w_collision w'
  /\ (forall d, matches (normalize_ext "old")
                  (basename_of linux (join Posix d "doc.txt")) = false).
Proof.
  apply (@unselected_files_untouched linux "root" "old" "new" w_collision
           (File [lit "root"] "doc.txt" 3)).
  - unfold plain_names. simpl. repeat constructor.
  - simpl. auto.
  - reflexivity.
Defined.

(** ** Running the script again *)

Lemma ends_comparable (z a x b y : str) :
  z = a ++ x -> z = b ++ y -> endswith x y = true \/ endswith y x = true.
Proof.
  intros -> E. apply app_eq_app in E as [l [[-> ->] | [-> ->]]].
  - right. apply endswith_spec. now exists l.
  - left. apply endswith_spec. now exists l.
Qed.

(** A name with the new extension is not selected again when neither
    extension ends with the other. *)
Lemma new_name_not_selected h oe ne root fname :
  lower ne = ne -> unrelated oe ne -> matches oe fname = true ->
  matches oe (basename_of h (join (flavour h) root (new_name_of oe ne fname)))
  = false.
Proof.
  intros Ln [U1 U2] M.
  destruct (matches oe (basename_of h _)) eqn:My; [|reflexivity]. exfalso.
  unfold basename_of in My. rewrite last_split_join in My.
  destruct (last_split_suffix (flavour h) (new_name_of oe ne fname)) as [pre E].
  apply matches_spec in My as (s & t & Ey & Lt). rewrite Ey in E.
  unfold new_name_of in E.
  apply (f_equal lower) in E. rewrite !lower_app, Ln, Lt in E.
  rewrite app_assoc in E.
  destruct (@ends_comparable _ _ _ _ _ E eq_refl) as [C | C]; congruence.
Qed.

Lemma uuid4_not_selected oe w :
  startswith oe "." = true -> matches oe (uuid4 w) = false.
Proof.
  intro S. destruct (matches oe (uuid4 w)) eqn:M; [|reflexivity]. exfalso.
  unfold matches in M. rewrite uuid4_lower in M.
  apply endswith_spec in M as [t E].
  apply startswith_spec in S as [r ->].
  assert (I : In "."%char (uuid4 w)).
  { rewrite E. apply in_or_app. right. now left. }
  apply uuid4_chars in I. discriminate.
Qed.

(** ** Finished, silent runs *)

Lemma bind_ret {A B} (m : M A) (k : A -> M B) w b :
  fst (bind m k w) = Ret b ->
  exists a, fst (m w) = Ret a /\ fst (k a (snd (m w))) = Ret b
            /\ snd (bind m k w) = snd (k a (snd (m w))).
Proof.
  unfold bind. destruct (m w) as [[a|e] w1]; simpl; [|discriminate].
  intro H. now exists a.
Qed.

Lemma silent_split (s0 s1 s2 l1 l2 : list str) :
  s1 = s0 ++ l1 -> s2 = s1 ++ l2 -> s2 = s0 -> s1 = s0 /\ s2 = s1.
Proof.
  intros -> -> E. rewrite <- app_assoc in E.
  assert (L : length (s0 ++ l1 ++ l2) = length s0) by now rewrite E.
  rewrite !length_app in L.
  destruct l1; [|simpl in L; lia]. destruct l2; [|simpl in L; lia].
  now rewrite !app_nil_r.
Qed.

Lemma for_each_only_warnings h oe ne root fs w :
  only_warnings h oe w (snd (for_each fs (loop_body h oe ne root) w)).
Proof.
  apply for_each_preserves with (Inv := only_warnings h oe w) (P := fun _ => True).
  - intros x w1 _ H. now apply loop_body_only_warnings.
  - apply Forall_forall. auto.
  - apply only_warnings_refl.
Qed.

Lemma walk_only_warnings h oe ne t c top w :
  only_warnings h oe w (snd (walk_bottom_up h (dir_body h oe ne) t c top w)).
Proof.
  apply walk_preserves with (Inv := only_warnings h oe w) (Good := fun _ => True);
    auto using only_warnings_refl.
  intros root dn fs w1 _ H. eapply only_warnings_trans; [exact H|].
  apply for_each_only_warnings.
Qed.

Lemma walk_subs_only_warnings h oe ne c top l : forall w,
  only_warnings h oe w (snd (walk_subs h (dir_body h oe ne) c top l w)).
Proof.
  induction l as [|[d t'] l IH]; intro w; [apply only_warnings_refl|].
  rewrite walk_subs_cons, bind_snd.
  pose proof (walk_only_warnings h oe ne t' (c ++ [d])
                (join (flavour h) top d) w) as H1.
  destruct (fst _); [|exact H1].
  eapply only_warnings_trans; [exact H1 | apply IH].
Qed.

(** A sequence finished in silence when both of its parts did. *)
Lemma bind_silent h oe (m : M unit) (k : unit -> M unit) w :
  only_warnings h oe w (snd (m w)) ->
  (forall w1, only_warnings h oe w1 (snd (k tt w1))) ->
  fst (bind m k w) = Ret tt -> stdout (snd (bind m k w)) = stdout w ->
  fst (m w) = Ret tt /\ stdout (snd (m w)) = stdout w
  /\ fst (k tt (snd (m w))) = Ret tt
  /\ stdout (snd (k tt (snd (m w)))) = stdout (snd (m w))
  /\ snd (bind m k w) = snd (k tt (snd (m w))).
Proof.
  intros (p1 & E1 & _) Hk R S.
  apply bind_ret in R as ([] & R1 & R2 & E). rewrite E in S.
  destruct (Hk (snd (m w))) as (p2 & E2 & _).
  destruct (@silent_split _ _ _ _ _ E1 E2 S) as [S1 S2]. auto.
Qed.

(** ** Paths built by [os.path.join] *)

Lemma resolve_nonempty h w p :
  p <> [] -> resolve h w p = resolve_from h (dirs w) [] (split_path (flavour h) p).
Proof. destruct p; [congruence | reflexivity]. Qed.

Lemma join_plain f root b :
  root <> [] -> plain f b = true ->
  exists r' s,
    is_sep f s = true /\ join f root b = r' ++ s :: b
    /\ (split_path f root = split_path f r'
        \/ split_path f root = split_path f r' ++ [[]]).
Proof.
  intros N P.
  assert (K : exists r' s,
             is_sep f s = true
             /\ match rev root with
                | [] => b
                | l :: _ => if is_sep f l then root ++ b else root ++ sep f :: b
                end = r' ++ s :: b
             /\ (split_path f root = split_path f r'
                 \/ split_path f root = split_path f r' ++ [[]])).
  { destruct (rev root) as [|l r] eqn:E.
    - apply (f_equal (@rev ascii)) in E. rewrite rev_involutive in E.
      simpl in E. contradiction.
    - assert (R : root = rev r ++ [l]).
      { rewrite <- (rev_involutive root), E. reflexivity. }
      destruct (is_sep f l) eqn:El.
      + exists (rev r), l. split; [exact El|]. split.
        * rewrite R, <- app_assoc. reflexivity.
        * right. rewrite R. now rewrite split_path_app_sep.
      + exists root, (sep f). split; [destruct f; reflexivity|].
        split; [reflexivity | now left]. }
  unfold join. destruct b as [|ch b']; [exact K|].
  simpl in P. apply andb_true_iff in P as [P _]. apply negb_true_iff in P.
  rewrite P. exact K.
Qed.

Lemma resolve_join h w root b c :
  root <> [] -> plain (flavour h) b = true ->
  resolve h w root = Some (TDir c) ->
  resolve h w (join (flavour h) root b) = resolve_from h (dirs w) c [b].
Proof.
  intros N P R.
  destruct (@join_plain (flavour h) root b N P) as (r' & s & Hs & -> & Sp).
  rewrite resolve_nonempty by (destruct r'; discriminate).
  rewrite resolve_nonempty in R by exact N.
  rewrite split_path_app_sep, (split_path_plain _ _ P) by exact Hs.
  rewrite resolve_from_app by discriminate.
  destruct Sp as [Sp | Sp]; rewrite Sp in R.
  - now rewrite R.
  - rewrite resolve_from_app in R by discriminate.
    destruct (resolve_from h (dirs w) [] (split_path (flavour h) r'))
      as [[c'|c' x]|]; try discriminate.
    simpl in R. now injection R as ->.
Qed.

Lemma join_nonempty f root b : root <> [] -> join f root b <> [].
Proof.
  intro N. unfold join.
  assert (K : match rev root with
              | [] => b
              | l :: _ => if is_sep f l then root ++ b else root ++ sep f :: b
              end <> []).
  { destruct (rev root) as [|l r] eqn:E.
    - apply (f_equal (@rev ascii)) in E. rewrite rev_involutive in E.
      simpl in E. contradiction.
    - destruct (is_sep f l); destruct root; try congruence; discriminate. }
  destruct b as [|ch b']; [exact K|].
  destruct (is_sep f ch); [discriminate | exact K].
Qed.

(** ** Well-formed trees *)

Lemma name_eqb_sym h a b : name_eqb h a b = name_eqb h b a.
Proof.
  unfold name_eqb.
  assert (S : forall x y, str_eqb x y = str_eqb y x).
  { intros x y. destruct (str_eqb x y) eqn:E.
    - apply str_eqb_eq in E. subst. symmetry. apply str_eqb_refl.
    - symmetry. apply str_eqb_neq. apply str_eqb_neq in E. congruence. }
  destruct (case_sensitive h); apply S.
Qed.

Lemma name_eqb_of_eq h a b : str_eqb a b = true -> name_eqb h a b = true.
Proof. intro E. apply str_eqb_eq in E. subst. apply name_eqb_refl. Qed.

Lemma distinct_find (h : host) (p : str -> str -> bool) subs d t' :
  (forall a b, p a b = true -> name_eqb h a b = true) ->
  (forall a, p a a = true) ->
  distinct_names h subs = true -> In (d, t') subs ->
  find (fun e => p (fst e) d) subs = Some (d, t').
Proof.
  intros Hp Hr. induction subs as [|[d0 t0] l IH]; simpl; [contradiction|].
  intros D I. apply andb_true_iff in D as [D1 D2].
  apply negb_true_iff in D1.
  destruct I as [I | I].
  - injection I as -> ->. now rewrite Hr.
  - destruct (p d0 d) eqn:E; [|now apply IH].
    exfalso. apply Hp in E.
    assert (X : existsb (fun e => name_eqb h (fst e) d0) l = true).
    { apply existsb_exists. exists (d, t'). split; [exact I|].
      simpl. now rewrite name_eqb_sym. }
    congruence.
Qed.

Lemma find_sub_child h subs d t' :
  distinct_names h subs = true -> In (d, t') subs ->
  find_sub h (Dir subs) d = Some (d, t').
Proof.
  intros D I. unfold find_sub. simpl.
  apply (distinct_find h (name_eqb h)); auto using name_eqb_refl.
Qed.

Lemma find_exact_child h subs d t' :
  distinct_names h subs = true -> In (d, t') subs ->
  find (fun e => str_eqb (fst e) d) subs = Some (d, t').
Proof.
  intros D I.
  apply (distinct_find h str_eqb); auto using str_eqb_refl, name_eqb_of_eq.
Qed.

Lemma subtree_app t c : forall top d subs,
  subtree top c = Some (Dir subs) ->
  find (fun e => str_eqb (fst e) d) subs = Some (d, t) ->
  subtree top (c ++ [d]) = Some t.
Proof.
  induction c as [|x c IH]; intros top d subs S F; simpl in *.
  - injection S as ->. simpl. now rewrite F.
  - destruct (find _ (subs_of top)) as [[y t1]|]; [|discriminate].
    now apply IH with subs.
Qed.

Lemma wf_tree_unfold h subs :
  wf_tree h (Dir subs) = distinct_names h subs && wf_subs h subs.
Proof. reflexivity. Qed.

Lemma wf_subs_in h subs d t' :
  wf_subs h subs = true -> In (d, t') subs ->
  good_name (flavour h) d = true /\ wf_tree h t' = true.
Proof.
  induction subs as [|[d0 t0] l IH]; simpl; [contradiction|].
  intros W I. apply andb_true_iff in W as [W W3].
  apply andb_true_iff in W as [W1 W2].
  destruct I as [I | I]; [injection I as -> ->; auto | now apply IH].
Qed.

Lemma wf_subtree h c : forall top t,
  wf_tree h top = true -> subtree top c = Some t -> wf_tree h t = true.
Proof.
  induction c as [|x c IH]; intros top t W S; simpl in S.
  - now injection S as <-.
  - destruct top as [subs]. simpl in S.
    destruct (find _ subs) as [[y t1]|] eqn:F; [|discriminate].
    apply find_some in F as [F _].
    rewrite wf_tree_unfold in W. apply andb_true_iff in W as [_ W].
    destruct (wf_subs_in _ _ _ _ W F) as [_ W1]. now apply IH with t1.
Qed.

(** The path [os.walk] builds for a subdirectory leads to it. *)
Lemma resolve_child h w top c subs d t' :
  top <> [] -> resolve h w top = Some (TDir c) ->
  subtree (dirs w) c = Some (Dir subs) ->
  wf_tree h (Dir subs) = true -> In (d, t') subs ->
  resolve h w (join (flavour h) top d) = Some (TDir (c ++ [d]))
  /\ subtree (dirs w) (c ++ [d]) = Some t'.
Proof.
  intros N R S W I. rewrite wf_tree_unfold in W.
  apply andb_true_iff in W as [D W].
  destruct (wf_subs_in _ _ _ _ W I) as [G _].
  unfold good_name in G. apply andb_true_iff in G as [G G3].
  apply andb_true_iff in G as [G1 G2].
  apply negb_true_iff in G2, G3.
  split.
  - rewrite (@resolve_join h w top d c N G1 R). simpl.
    rewrite G2, G3, S, (find_sub_child h _ _ _ D I). reflexivity.
  - apply subtree_app with subs; [exact S|].
    now apply find_exact_child with h.
Qed.

(** ** The directory tree stays *)

Lemma safe_rename_dirs h old new w :
  dirs (snd (safe_rename h old new w)) = dirs w.
Proof.
  unfold safe_rename.
  destruct (str_eqb _ _); [|apply os_rename_dirs].
  rewrite bind_snd. destruct (fst _).
  - rewrite !os_rename_dirs. reflexivity.
  - apply os_rename_dirs.
Qed.

Lemma loop_body_dirs h oe ne root fname w :
  dirs (snd (loop_body h oe ne root fname w)) = dirs w.
Proof.
  unfold loop_body. destruct (matches oe fname); [|reflexivity].
  destruct (collides _ _ _ _); [reflexivity | apply safe_rename_dirs].
Qed.

Lemma for_each_dirs h oe ne root fs w :
  dirs (snd (for_each fs (loop_body h oe ne root) w)) = dirs w.
Proof.
  apply for_each_preserves
    with (Inv := fun w1 => dirs w1 = dirs w) (P := fun _ => True); auto.
  - intros x w1 _ H. now rewrite loop_body_dirs.
  - apply Forall_forall. auto.
Qed.

Lemma walk_dirs h oe ne t c top w :
  dirs (snd (walk_bottom_up h (dir_body h oe ne) t c top w)) = dirs w.
Proof.
  apply walk_preserves
    with (Inv := fun w1 => dirs w1 = dirs w) (Good := fun _ => True); auto.
  intros root dn fs w1 _ H. unfold dir_body. now rewrite for_each_dirs.
Qed.

Lemma for_each_plain h oe ne root fs w :
  plain_names h w -> plain_names h (snd (for_each fs (loop_body h oe ne root) w)).
Proof.
  intro P.
  apply for_each_preserves with (Inv := plain_names h) (P := fun _ => True); auto.
  - intros x w1 _ H. now apply loop_body_plain.
  - apply Forall_forall. auto.
Qed.

Lemma walk_plain h oe ne t c top w :
  plain_names h w ->
  plain_names h (snd (walk_bottom_up h (dir_body h oe ne) t c top w)).
Proof.
  intro P.
  apply walk_preserves with (Inv := plain_names h) (Good := fun _ => True); auto.
  intros root dn fs w1 _ H. now apply for_each_plain.
Qed.

(** ** What a finished, silent run leaves behind *)

Section Rerun.
Variable h : host.
Variables oe ne : str.
Hypothesis ne_lower : lower ne = ne.
Hypothesis oe_dot : startswith oe "." = true.
Hypothesis exts_unrelated : unrelated oe ne.

(** After a successful [os.rename] to a name that is not selected, every
    selected file was there before, and is not the one that moved. *)
Lemma os_rename_cleans old new w e :
  fst (os_rename h old new w) = Ret tt ->
  matches oe (basename_of h new) = false ->
  In e (files (snd (os_rename h old new w))) -> selected oe e ->
  In e (files w)
  /\ exists c x, resolve h w old = Some (TName c x) /\ is_entry h c x e = false.
Proof.
  intros R Mn I Se. apply os_rename_ret in R.
  destruct R as (c & x & src & c' & y & Ro & _ & Rn & E).
  rewrite E in I. destruct I as [<- | I].
  - exfalso. unfold selected in Se. simpl in Se.
    apply resolve_name in Rn. fold (basename_of h new) in Rn. congruence.
  - apply in_remove_entry in I as [I _]. apply in_remove_entry in I as [I X].
    split; [exact I|]. now exists c, x.
Qed.

Lemma safe_rename_cleans old new w e :
  fst (safe_rename h old new w) = Ret tt ->
  matches oe (basename_of h new) = false ->
  In e (files (snd (safe_rename h old new w))) -> selected oe e ->
  In e (files w)
  /\ exists c x, resolve h w old = Some (TName c x) /\ is_entry h c x e = false.
Proof.
  unfold safe_rename. destruct (str_eqb _ _).
  - fold (temp_path h old w). intros R Mn I Se.
    apply bind_ret in R as ([] & R1 & R2 & E). rewrite E in I.
    destruct (os_rename_cleans _ _ _ R2 Mn I Se) as [I1 _].
    apply (os_rename_cleans _ _ _ R1); auto.
    unfold basename_of. rewrite temp_path_last.
    now apply uuid4_not_selected.
  - apply os_rename_cleans.
Qed.

Lemma silent_no_collision root fname w :
  matches oe fname = true ->
  stdout (snd (loop_body h oe ne root fname w)) = stdout w ->
  collides h w (join (flavour h) root fname)
    (join (flavour h) root (new_name_of oe ne fname)) = false.
Proof.
  intros M S. rewrite loop_body_stdout, M in S. simpl in S.
  destruct (collides _ _ _ _); [|reflexivity].
  apply (f_equal (@List.length str)) in S. rewrite length_app in S.
  simpl in S. lia.
Qed.

(** One silent, successful turn of the loop on the file [fname] of the
    directory [c]: the selected files afterwards were there before, and
    none of them is the entry [fname] of [c]. *)
Lemma loop_body_cleans root c fname w e :
  root <> [] -> resolve h w root = Some (TDir c) ->
  plain (flavour h) fname = true ->
  fst (loop_body h oe ne root fname w) = Ret tt ->
  stdout (snd (loop_body h oe ne root fname w)) = stdout w ->
  In e (files (snd (loop_body h oe ne root fname w))) -> selected oe e ->
  In e (files w) /\ is_entry h c fname e = false.
Proof.
  intros N Rr P R S I Se.
  destruct (matches oe fname) eqn:M.
  - pose proof (silent_no_collision root fname w M S) as C.
    unfold loop_body in R, I. rewrite M, C in R, I.
    assert (Mn : matches oe (basename_of h
                   (join (flavour h) root (new_name_of oe ne fname))) = false)
      by now apply new_name_not_selected.
    destruct (safe_rename_cleans _ _ _ R Mn I Se) as (I0 & c0 & x0 & Ro & X).
    split; [exact I0|].
    rewrite (@resolve_join h w root fname c N P Rr) in Ro.
    apply resolve_from_one in Ro as [-> ->]. exact X.
  - unfold loop_body in I. rewrite M in I. split; [exact I|].
    unfold is_entry. destruct (name_eqb h (f_name e) fname) eqn:E;
      [|apply andb_false_r].
    apply name_eqb_lower in E. unfold selected in Se.
    rewrite (matches_lower oe _ _ E) in Se. congruence.
Qed.

Lemma for_each_cleans root c fs : forall w e,
  root <> [] -> resolve h w root = Some (TDir c) ->
  Forall (fun x => plain (flavour h) x = true) fs ->
  fst (for_each fs (loop_body h oe ne root) w) = Ret tt ->
  stdout (snd (for_each fs (loop_body h oe ne root) w)) = stdout w ->
  In e (files (snd (for_each fs (loop_body h oe ne root) w))) -> selected oe e ->
  In e (files w) /\ Forall (fun x => is_entry h c x e = false) fs.
Proof.
  induction fs as [|x fs IH]; intros w e N Rr P R S I Se.
  - split; [exact I | constructor].
  - simpl in R, S, I. inversion P as [|? ? Px Pfs]; subst.
    destruct (@bind_silent h oe (loop_body h oe ne root x)
                (fun _ => for_each fs (loop_body h oe ne root)) w)
      as (R1 & S1 & R2 & S2 & E); auto.
    { apply loop_body_only_warnings, only_warnings_refl. }
    { intro w1. apply for_each_only_warnings. }
    rewrite E in I.
    destruct (IH (snd (loop_body h oe ne root x w)) e) as [I1 F1]; auto.
    { rewrite <- Rr. apply resolve_same_dirs, loop_body_dirs. }
    destruct (@loop_body_cleans root c x w e N Rr Px R1 S1 I1 Se) as [I0 X].
    split; [exact I0 | now constructor].
Qed.

(** When no selected file lies in a directory the walk reaches, the walk
    does nothing. *)
Lemma for_each_noop root fs w :
  Forall (fun x => matches oe x = false) fs ->
  for_each fs (loop_body h oe ne root) w = (Ret tt, w).
Proof.
  induction fs as [|x fs IH]; intro F; [reflexivity|].
  inversion F; subst. simpl. unfold bind, loop_body.
  rewrite H1. simpl. now apply IH.
Qed.

Lemma walk_subs_dirs c top l : forall w,
  dirs (snd (walk_subs h (dir_body h oe ne) c top l w)) = dirs w.
Proof.
  induction l as [|[d t'] l IH]; intro w; [reflexivity|].
  rewrite walk_subs_cons, bind_snd.
  destruct (fst _); [|apply walk_dirs]. rewrite IH. apply walk_dirs.
Qed.

Lemma walked_unfold subs c :
  walked (Dir subs) c = c :: walked_subs c subs.
Proof. reflexivity. Qed.

Lemma in_listing w c e :
  In e (files w) -> f_dir e = c -> In (f_name e) (listing w c).
Proof.
  intros I <-. unfold listing. apply in_map, filter_In.
  split; [exact I | apply path_eqb_refl].
Qed.

(** A finished, silent walk leaves no selected file in any directory it
    reached; the selected files that are left elsewhere were there
    before. *)
Lemma walk_cleans t : forall c top w e,
  wf_tree h t = true -> top <> [] ->
  resolve h w top = Some (TDir c) -> subtree (dirs w) c = Some t ->
  plain_names h w ->
  fst (walk_bottom_up h (dir_body h oe ne) t c top w) = Ret tt ->
  stdout (snd (walk_bottom_up h (dir_body h oe ne) t c top w)) = stdout w ->
  In e (files (snd (walk_bottom_up h (dir_body h oe ne) t c top w))) ->
  selected oe e ->
  In e (files w) /\ ~ In (f_dir e) (walked t c).
Proof.
  induction t as [subs IH] using tree_ind'.
  intros c top w e W N Rt St P R S I Se.
  rewrite walk_unfold in R, S, I.
  destruct (@bind_silent h oe (walk_subs h (dir_body h oe ne) c top subs)
              (fun _ => dir_body h oe ne top (map fst subs) (listing w c)) w)
    as (R1 & S1 & R2 & S2 & E); auto.
  { apply walk_subs_only_warnings. }
  { intro w1. apply for_each_only_warnings. }
  rewrite E in I. clear E R S.
  set (wb := snd (walk_subs h (dir_body h oe ne) c top subs w)) in *.
  assert (Sub : forall l, incl l subs -> forall w1 e1,
             dirs w1 = dirs w -> plain_names h w1 ->
             fst (walk_subs h (dir_body h oe ne) c top l w1) = Ret tt ->
             stdout (snd (walk_subs h (dir_body h oe ne) c top l w1)) = stdout w1 ->
             In e1 (files (snd (walk_subs h (dir_body h oe ne) c top l w1))) ->
             selected oe e1 ->
             In e1 (files w1) /\ ~ In (f_dir e1) (walked_subs c l)).
  { clear R1 S1 R2 S2 I Se e. rewrite Forall_forall in IH.
    induction l as [|[d t'] l IHl]; intros Hl w1 e1 Hd P1 R S I Se.
    - split; [exact I | intros []].
    - rewrite walk_subs_cons in R, S, I.
      destruct (@bind_silent h oe
                  (walk_bottom_up h (dir_body h oe ne) t' (c ++ [d])
                     (join (flavour h) top d))
                  (fun _ => walk_subs h (dir_body h oe ne) c top l) w1)
        as (R1 & S1 & R2 & S2 & E); auto.
      { apply walk_only_warnings. }
      { intro w2. apply walk_subs_only_warnings. }
      rewrite E in I.
      assert (Hin : In (d, t') subs) by (apply Hl; now left).
      destruct (@resolve_child h w top c subs d t' N Rt St W Hin) as [Rc Sc].
      rewrite wf_tree_unfold in W. apply andb_true_iff in W as [_ W].
      destruct (wf_subs_in _ _ _ _ W Hin) as [_ Wt].
      destruct (IHl (fun x Hx => Hl x (or_intror Hx))
                  (snd (walk_bottom_up h (dir_body h oe ne) t' (c ++ [d])
                          (join (flavour h) top d) w1)) e1)
        as [I1 X1]; auto.
      { now rewrite walk_dirs. }
      { now apply walk_plain. }
      destruct (IH (d, t') Hin (c ++ [d]) (join (flavour h) top d) w1 e1)
        as [I0 X0]; auto.
      { now apply join_nonempty. }
      { rewrite <- Rc. now apply resolve_same_dirs. }
      { now rewrite Hd. }
      split; [exact I0|].
      simpl. intro Hx. apply in_app_or in Hx as [Hx | Hx]; contradiction. }
  assert (Db : dirs wb = dirs w) by apply walk_subs_dirs.
  destruct (@for_each_cleans top c (listing w c) wb e) as [Ib Fb]; auto.
  { rewrite <- Rt. now apply resolve_same_dirs. }
  { now apply listing_plain. }
  destruct (Sub subs (incl_refl _) w e) as [I0 X0]; auto.
  split; [exact I0|].
  rewrite walked_unfold. intros [Hc | Hx]; [|contradiction].
  rewrite Forall_forall in Fb.
  specialize (Fb (f_name e) (in_listing w e I0 (eq_sym Hc))).
  unfold is_entry in Fb. rewrite <- Hc, path_eqb_refl, name_eqb_refl in Fb.
  discriminate.
Qed.

(** A walk that meets no selected file changes nothing. *)
Lemma walk_noop t : forall c top w,
  (forall e, In e (files w) -> In (f_dir e) (walked t c) ->
             matches oe (f_name e) = false) ->
  walk_bottom_up h (dir_body h oe ne) t c top w = (Ret tt, w).
Proof.
  induction t as [subs IH] using tree_ind'.
  intros c top w Hc. rewrite walk_unfold.
  assert (Sub : forall l,
             Forall (fun e =>
                       forall c top w,
                         (forall e0, In e0 (files w) ->
                                     In (f_dir e0) (walked (snd e) c) ->
                                     matches oe (f_name e0) = false) ->
                         walk_bottom_up h (dir_body h oe ne) (snd e) c top w
                         = (Ret tt, w)) l ->
             (forall e, In e (files w) -> In (f_dir e) (walked_subs c l) ->
                        matches oe (f_name e) = false) ->
             walk_subs h (dir_body h oe ne) c top l w = (Ret tt, w)).
  { induction l as [|[d t'] l IHl]; intros Fl Hl; [reflexivity|].
    inversion Fl as [|? ? Ht Fl']; subst.
    rewrite walk_subs_cons. unfold bind. simpl in Ht. rewrite Ht.
    - apply IHl; [exact Fl'|]. intros e I X. apply Hl; [exact I|].
      simpl. apply in_or_app. now right.
    - intros e I X. apply Hl; [exact I|]. simpl. apply in_or_app. now left. }
  unfold bind. rewrite Sub; [|exact IH|].
  - unfold dir_body. apply for_each_noop. apply Forall_forall.
    intros x Hx. unfold listing in Hx.
    apply in_map_iff in Hx as (e & <- & He). apply filter_In in He as [He Hp].
    apply path_eqb_eq in Hp. apply Hc; [exact He|].
    rewrite walked_unfold, Hp. now left.
  - intros e I X. apply Hc; [exact I|]. rewrite walked_unfold. now right.
Qed.

End Rerun.

Lemma silent_stdout h oe w w' :
  only_warnings h oe w w' -> printed_between w w' = [] -> stdout w' = stdout w.
Proof.
  intros (ps & E & _) P. unfold printed_between in P.
  rewrite E, skipn_app, skipn_all, Nat.sub_diag in P. simpl in P.
  rewrite E, P. apply app_nil_r.
Qed.

(** C6, as stated, fails: with [root/x.new] in the way of [root/x.old]
    the first run skips [root/x.old]; the second run finds it again, still
    selected, and reports the same skip once more. *)
Lemma second_run_skips_again :
  let w1 := snd (rename_extensions linux "root" "old" "new" w_collision) in
  let r2 := rename_extensions linux "root" "old" "new" w1 in
  In (File [lit "root"] "x.old" 1) (files w1)
  /\ matches (normalize_ext "old") "x.old" = true
  /\ printed_between w1 (snd r2) = [warning "root/x.old"].
Proof. cbv zeta. split; [vm_compute; auto | split; reflexivity]. Qed.

(** A second way for C6 to fail, without any skip: when the new extension
    ends with the old one ([gz] to [tar.gz]) the renamed file is selected
    again, and the second run renames it once more. *)
Lemma second_run_renames_again :
  let w := World (Dir [(lit "root", Dir [])]) [File [lit "root"] "x.gz" 1] [] [] in
  let w1 := snd (rename_extensions linux "root" "gz" "tar.gz" w) in
  let w2 := snd (rename_extensions linux "root" "gz" "tar.gz" w1) in
  printed_between w w1 = []
  /\ files w1 = [File [lit "root"] "x.tar.gz" 1]
  /\ files w2 = [File [lit "root"] "x.tar.tar.gz" 1]
  /\ calls_between w1 w2 = [(lit "root/x.tar.gz", lit "root/x.tar.tar.gz")].
Proof. cbv zeta. repeat split. Qed.

(** C6, amended: on a well-formed file system, when neither normalised
    extension ends with the other and the first run finishes without
    raising and without skipping any file, no file in a directory under
    the root is selected any more, and a second run of the same call
    changes nothing: it returns [None] in the very state it started from,
    so it renames nothing and reports no skip. *)
Theorem second_run_changes_nothing h path old_ext new_ext w
    (Hwf : wf_tree h (dirs w) = true)
    (Hplain : plain_names h w)
    (Hunrel : unrelated (normalize_ext old_ext) (normalize_ext new_ext))
    (Hdone : fst (rename_extensions h path old_ext new_ext w) = Ret PyNone)
    (Hsilent :
       printed_between w (snd (rename_extensions h path old_ext new_ext w)) = []) :
  let w1 := snd (rename_extensions h path old_ext new_ext w) in
  (forall e, In e (files w1) -> In (f_dir e) (reached h w1 path) ->
             matches (normalize_ext old_ext) (f_name e) = false)
  /\ rename_extensions h path old_ext new_ext w1 = (Ret PyNone, w1).
Proof.
  cbv zeta.
  set (oe := normalize_ext old_ext) in *. set (ne := normalize_ext new_ext) in *.
  destruct (resolve h w path) as [[c|c x]|] eqn:Rp.
  - assert (Np : path <> []) by (intros ->; discriminate Rp).
    destruct (subtree (dirs w) c) as [t|] eqn:St.
    + pose proof (walk_only_warnings h oe ne t c path w) as OW.
      pose proof (walk_dirs h oe ne t c path w) as Dw.
      rewrite (@rename_extensions_walk h path old_ext new_ext w c t Rp St)
        in Hdone, Hsilent |- *.
      fold oe ne in Hdone, Hsilent |- *.
      apply bind_ret in Hdone as ([] & R1 & _ & E). rewrite E in Hsilent |- *.
      simpl in Hsilent |- *.
      set (w1 := snd (walk_bottom_up h (dir_body h oe ne) t c path w)) in *.
      pose proof (silent_stdout OW Hsilent) as S1.
      assert (Rp1 : resolve h w1 path = Some (TDir c)).
      { rewrite <- Rp. now apply resolve_same_dirs. }
      assert (St1 : subtree (dirs w1) c = Some t) by now rewrite Dw.
      assert (Clean : forall e, In e (files w1) -> In (f_dir e) (walked t c) ->
                                matches oe (f_name e) = false).
      { intros e I X. destruct (matches oe (f_name e)) eqn:M; [|reflexivity].
        exfalso.
        destruct (@walk_cleans h oe ne (normalize_ext_lower new_ext)
                    (normalize_ext_starts old_ext) Hunrel t c path w e)
          as [_ NX]; auto.
        now apply wf_subtree with c (dirs w). }
      split.
      * intros e I X. unfold reached in X. rewrite Rp1, St1 in X. now apply Clean.
      * rewrite (@rename_extensions_walk h path old_ext new_ext w1 c t Rp1 St1).
        fold oe ne. unfold bind. now rewrite walk_noop.
    + rewrite (@rename_extensions_no_tree h path old_ext new_ext w c Rp St).
      simpl. split.
      * intros e _ X. unfold reached in X. rewrite Rp, St in X. destruct X.
      * now apply rename_extensions_no_tree with c.
  - destruct (@rename_extensions_raises h path old_ext new_ext w) as [e Re];
      [intros c0; congruence | congruence].
  - destruct (@rename_extensions_raises h path old_ext new_ext w) as [e Re];
      [intros c0; congruence | congruence].
Qed.

Lemma second_run_changes_nothing_witness :
  let w1 := snd (rename_extensions linux "root" "old" "new" w_nested) in
  (forall e, In e (files w1) -> In (f_dir e) (reached linux w1 "root") ->
             matches (normalize_ext "old") (f_name e) = false)
  /\ rename_extensions linux "root" "old" "new" w1 = (Ret PyNone, w1).
Proof.
  apply (@second_run_changes_nothing linux "root" "old" "new" w_nested).
  - reflexivity.
  - unfold plain_names. simpl. repeat constructor.
  - split; reflexivity.
  - reflexivity.
  - reflexivity.
Defined.

(* ================================================================== *)
(** * Further properties of the script *)

(** ** More on the normaliser *)

Lemma lstrip_app_nonspace a c b :
  is_space c = false -> lstrip (a ++ c :: b) = lstrip a ++ c :: b.
Proof.
  intro H. induction a as [|x a IH]; simpl; [now rewrite H|].
  destruct (is_space x); [exact IH | reflexivity].
Qed.

Lemma rstrip_cons c x : is_space c = false -> rstrip (c :: x) = c :: rstrip x.
Proof.
  intro H. unfold rstrip. simpl.
  rewrite (lstrip_app_nonspace (rev x) c [] H), rev_app_distr. reflexivity.
Qed.

Lemma strip_cons c x : is_space c = false -> strip (c :: x) = c :: rstrip x.
Proof. intro H. unfold strip. simpl. rewrite H. now apply rstrip_cons. Qed.

(** X1: the leading dot is optional.  For an input that starts neither
    with white space nor with a dot, writing a dot in front of it gives the
    same normal form. *)
Theorem normalize_ext_dot_optional x
    (Hlead : no_lead x) (Hdot : startswith x "." = false) :
  normalize_ext (lit "." ++ x) = normalize_ext x.
Proof.
  assert (Sx : strip x = rstrip x).
  { unfold strip. now rewrite lstrip_fix. }
  assert (Hs : startswith (lower (strip x)) "." = false).
  { rewrite Sx. destruct x as [|c x]; [reflexivity|].
    simpl in Hlead. rewrite (@rstrip_cons c x Hlead). simpl.
    simpl in Hdot. rewrite andb_true_r in *.
    destruct (ascii_eqb (lower_char c) ".") eqn:E; [|reflexivity].
    apply ascii_eqb_eq in E. apply (proj1 (lower_char_dot c)) in E.
    subst c. discriminate. }
  unfold normalize_ext at 2. rewrite Hs.
  unfold normalize_ext. change (lit "." ++ x) with ("."%char :: x).
  rewrite strip_cons by reflexivity. rewrite Sx. reflexivity.
Qed.

Lemma normalize_ext_dot_optional_witness :
  normalize_ext (lit "." ++ lit "TxT ") = normalize_ext "TxT ".
Proof.
  apply (@normalize_ext_dot_optional "TxT "); reflexivity.
Defined.

(** X2: the normal form is the lone dot in two cases only: the input is
    blank, or it is a lone dot with white space around it. *)
Theorem normalize_ext_lone_dot x :
  normalize_ext x = lit "." <-> strip x = [] \/ strip x = lit ".".
Proof.
  split.
  - intro E. destruct (normalize_ext_cases x) as [[_ N] | [_ N]];
      rewrite N in E.
    + right. destruct (strip x) as [|c [|d s]]; try discriminate.
      simpl in E. injection E as E.
      apply (proj1 (lower_char_dot c)) in E. now subst c.
    + left. destruct (strip x); [reflexivity | discriminate].
  - unfold normalize_ext. intros [-> | ->]; reflexivity.
Qed.

(** X3: a file whose whole name is the old extension, in any case, is
    selected, and its new name is the new extension alone. *)
Theorem bare_extension_renamed old_ext new_ext fname
    (Hname : lower fname = normalize_ext old_ext) :
  matches (normalize_ext old_ext) fname = true
  /\ new_name_of (normalize_ext old_ext) (normalize_ext new_ext) fname
     = normalize_ext new_ext.
Proof.
  assert (Hne : normalize_ext old_ext <> []).
  { destruct (normalize_ext_dot old_ext) as [e ->]. discriminate. }
  split.
  - apply matches_spec. now exists [], fname.
  - change fname with ([] ++ fname) at 1.
    rewrite new_name_of_split; [reflexivity | exact Hne |].
    rewrite <- Hname. symmetry. apply lower_length.
Qed.

Lemma bare_extension_renamed_witness :
  matches (normalize_ext "old") ".OLD" = true
  /\ new_name_of (normalize_ext "old") (normalize_ext "new") ".OLD"
     = normalize_ext "new".
Proof. apply (@bare_extension_renamed "old" "new" ".OLD"). reflexivity. Defined.

(** ** A call that finds nothing to do *)

(** X4: when [path] is a directory and no file in a directory under it is
    selected, the call returns [None] and leaves the state as it was: no
    [os.rename] is issued and nothing is printed. *)
Theorem nothing_selected_nothing_done h path old_ext new_ext w
    (Hdir : isdir h w path = true)
    (Hnone : forall e, In e (files w) -> In (f_dir e) (reached h w path) ->
                       matches (normalize_ext old_ext) (f_name e) = false) :
  rename_extensions h path old_ext new_ext w = (Ret PyNone, w).
Proof.
  unfold isdir in Hdir.
  destruct (resolve h w path) as [[c|c x]|] eqn:Rp; try discriminate.
  destruct (subtree (dirs w) c) as [t|] eqn:St.
  - rewrite (@rename_extensions_walk h path old_ext new_ext w c t Rp St).
    unfold bind. rewrite walk_noop; [reflexivity|].
    intros e I X. apply Hnone; [exact I|].
    unfold reached. now rewrite Rp, St.
  - now apply rename_extensions_no_tree with c.
Qed.

Lemma nothing_selected_nothing_done_witness :
  rename_extensions linux "root" "bak" "new" w_nested = (Ret PyNone, w_nested).
Proof.
  apply (@nothing_selected_nothing_done linux "root" "bak" "new" w_nested).
  - reflexivity.
  - intros e I _. simpl in I.
    destruct I as [<- | [<- | [<- | []]]]; reflexivity.
Defined.

(** ** What [safe_rename] does to the files *)

Lemma find_none_all {A} (p : A -> bool) l :
  (forall e, In e l -> p e = false) -> find p l = None.
Proof.
  induction l as [|x l IH]; intro H; [reflexivity|].
  simpl. rewrite (H x (or_introl eq_refl)). apply IH.
  intros e I. apply H. now right.
Qed.

Lemma find_file_entry h fl c x src :
  find_file h fl c x = Some src -> In src fl /\ is_entry h c x src = true.
Proof. intro F. now apply find_some in F. Qed.

Lemma resolve_after_rename h a b w p :
  resolve h (snd (os_rename h a b w)) p = resolve h w p.
Proof. apply resolve_same_dirs, os_rename_dirs. Qed.

(** The name of a file that is there is shorter than the temporary name,
    and so is every spelling of it. *)
Lemma uuid4_not_source h w c x src :
  find_file h (files w) c x = Some src -> name_eqb h (uuid4 w) x = false.
Proof.
  intro F. apply find_file_entry in F as [I E].
  unfold is_entry in E. apply andb_true_iff in E as [_ E].
  destruct (name_eqb h (uuid4 w) x) eqn:U; [|reflexivity].
  apply name_eqb_length in E, U. rewrite uuid4_length in U.
  pose proof (files_max_bound _ _ I). lia.
Qed.

(** The state after the first step of the detour. *)
Lemma first_step_effect h old w :
  fst (os_rename h old (temp_path h old w) w) = Ret tt ->
  exists c x src ct,
    resolve h w old = Some (TName c x)
    /\ find_file h (files w) c x = Some src
    /\ resolve h w (temp_path h old w) = Some (TName ct (uuid4 w))
    /\ files (snd (os_rename h old (temp_path h old w) w))
       = File ct (uuid4 w) (f_data src)
         :: remove_entry h ct (uuid4 w) (remove_entry h c x (files w)).
Proof.
  intro R. apply os_rename_ret in R.
  destruct R as (c & x & src & ct & u & Ro & Fo & Rt & E).
  pose proof (resolve_name _ _ _ Rt) as Hu. rewrite temp_path_last in Hu.
  subst u. now exists c, x, src, ct.
Qed.




(** X6: there is no rollback.  When the first step of the detour succeeds
    and the second raises, [safe_rename] raises and leaves the content of
    the source under the temporary name; the source name is gone. *)
Theorem safe_rename_orphan h old new w e
    (Hsame : normcase (flavour h) old = normcase (flavour h) new)
    (Hfirst : fst (os_rename h old (temp_path h old w) w) = Ret tt)
    (Hraise : fst (safe_rename h old new w) = Raise e) :
  let w' := snd (safe_rename h old new w) in
  exists c x src ct,
    resolve h w old = Some (TName c x)
    /\ find_file h (files w) c x = Some src
    /\ In (File ct (uuid4 w) (f_data src)) (files w')
    /\ find_file h (files w') c x = None.
Proof.
  cbv zeta. unfold safe_rename in *. apply str_eqb_eq in Hsame.
  rewrite Hsame in *. fold (temp_path h old w) in *.
  destruct (first_step_effect h old w Hfirst)
    as (c & x & src & ct & Ro & Fo & Rt & E1).
  unfold bind in *.
  destruct (os_rename h old (temp_path h old w) w) as [[[]|e1] w1] eqn:O1;
    simpl in Hfirst, E1; [|discriminate].
  assert (F2 : files (snd (os_rename h (temp_path h old w) new w1)) = files w1).
  { destruct (os_rename_effect h (temp_path h old w) new w1)
      as [[R _] | [_ F]]; [congruence | exact F]. }
  rewrite F2, E1. exists c, x, src, ct. repeat split; auto.
  - now left.
  - apply find_none_all. intros e0 [<- | I].
    + unfold is_entry. simpl.
      rewrite (uuid4_not_source h w c x Fo). apply andb_false_r.
    + apply in_remove_entry in I as [I _]. now apply in_remove_entry in I as [_ X].
Qed.

Lemma safe_rename_orphan_witness :
  let w' := snd (safe_rename windows_cs "root\X.OLD" "root\x.old" w_two_cases) in
  fst (safe_rename windows_cs "root\X.OLD" "root\x.old" w_two_cases)
  = Raise FileExistsError
  /\ exists c x src ct,
       resolve windows_cs w_two_cases "root\X.OLD" = Some (TName c x)
       /\ find_file windows_cs (files w_two_cases) c x = Some src
       /\ In (File ct (uuid4 w_two_cases) (f_data src)) (files w')
       /\ find_file windows_cs (files w') c x = None.
Proof.
  split; [reflexivity|].
  apply (@safe_rename_orphan windows_cs "root\X.OLD" "root\x.old" w_two_cases
           FileExistsError); reflexivity.
Defined.

(** ** The form: [browse_dir] and [run] *)

Lemma strip_idem s : strip (strip s) = strip s.
Proof. apply strip_fix, strip_stripped. Qed.

(** X7: when one of the three fields is blank, [run] opens the error box
    "All fields must be filled out." and does nothing else: the file
    system is not looked at and stays as it was. *)
Theorem run_blank_field h strerror g w
    (Hblank : strip (entry_path g) = [] \/ strip (entry_old g) = []
              \/ strip (entry_new g) = []) :
  run h strerror g w
  = (show (ShowError "Error" "All fields must be filled out.") g, w).
Proof.
  unfold run.
  destruct Hblank as [E | [E | E]]; rewrite E;
    repeat match goal with
           | |- context [match ?s with [] => _ | _ :: _ => _ end] => destruct s
           end; reflexivity.
Qed.

Lemma run_blank_field_witness :
  run linux (fun _ => []) (Form "root" "  " "new" []) w_nested
  = (show (ShowError "Error" "All fields must be filled out.")
          (Form "root" "  " "new" []), w_nested).
Proof.
  apply (@run_blank_field linux (fun _ => []) (Form "root" "  " "new" [])
           w_nested).
  right. left. reflexivity.
Defined.

(** X8: white space around the three inputs does not matter: [run] opens
    the same box and leaves the same state as on the stripped inputs. *)
Theorem run_ignores_padding h strerror g w :
  let g' := Form (strip (entry_path g)) (strip (entry_old g))
                 (strip (entry_new g)) (boxes g) in
  boxes (fst (run h strerror g w)) = boxes (fst (run h strerror g' w))
  /\ snd (run h strerror g w) = snd (run h strerror g' w).
Proof.
  cbv zeta. unfold run. simpl. rewrite !strip_idem.
  destruct (strip (entry_path g)); [split; reflexivity|].
  destruct (strip (entry_old g)); [split; reflexivity|].
  destruct (strip (entry_new g)); [split; reflexivity|].
  destruct (rename_extensions _ _ _ _ _) as [[v|e] w']; split; reflexivity.
Qed.

Lemma run_raise_not_a_directory h strerror g w :
  strip (entry_path g) <> [] -> strip (entry_old g) <> [] ->
  strip (entry_new g) <> [] -> isdir h w (strip (entry_path g)) = false ->
  run h strerror g w
  = (show (ShowError "Error" (lit "Not a directory: " ++ strip (entry_path g)))
          g, w).
Proof.
  intros Hpath Hold Hnew Hnot. unfold run, rename_extensions. rewrite Hnot.
  destruct (strip (entry_path g)); [contradiction|].
  destruct (strip (entry_old g)); [contradiction|].
  destruct (strip (entry_new g)); [contradiction|].
  reflexivity.
Qed.

(** X9: with all fields filled in and a path that is no directory, [run]
    opens the error box with the text "Not a directory: " followed by the
    stripped path, and the state stays as it was. *)
Theorem run_not_a_directory h strerror g w
    (Hpath : strip (entry_path g) <> [])
    (Hold : strip (entry_old g) <> [])
    (Hnew : strip (entry_new g) <> [])
    (Hnot : isdir h w (strip (entry_path g)) = false) :
  run h strerror g w
  = (show (ShowError "Error" (lit "Not a directory: " ++ strip (entry_path g)))
          g, w).
Proof.
  unfold run, rename_extensions. rewrite Hnot.
  destruct (strip (entry_path g)); [contradiction|].
  destruct (strip (entry_old g)); [contradiction|].
  destruct (strip (entry_new g)); [contradiction|].
  reflexivity.
Qed.

Lemma run_not_a_directory_witness :
  run linux (fun _ => []) (Form " root/doc.txt " "old" "new" []) w_nested
  = (show (ShowError "Error" (lit "Not a directory: root/doc.txt"))
          (Form " root/doc.txt " "old" "new" []), w_nested).
Proof.
  apply (@run_not_a_directory linux (fun _ => [])
           (Form " root/doc.txt " "old" "new" []) w_nested);
    try discriminate; reflexivity.
Defined.

(** X10: [run] opens exactly one message box and leaves the fields alone;
    the box is the "Done" box exactly when all three fields were filled in
    and [rename_extensions] did not raise, skipped files or not. *)
Theorem run_one_box h strerror g w :
  let path := strip (entry_path g) in
  let old_ext := strip (entry_old g) in
  let new_ext := strip (entry_new g) in
  exists b,
    fst (run h strerror g w)
    = Form (entry_path g) (entry_old g) (entry_new g) (boxes g ++ [b])
    /\ (b = ShowInfo "Done" (done_message path old_ext new_ext)
        <-> (path <> [] /\ old_ext <> [] /\ new_ext <> []
             /\ fst (rename_extensions h path old_ext new_ext w) = Ret PyNone)).
Proof.
  cbv zeta. unfold run.
  destruct (strip (entry_path g)) as [|p ps] eqn:Ep;
    [eexists; split; [reflexivity|]; split;
       [discriminate | intros (N & _); contradiction]|].
  destruct (strip (entry_old g)) as [|o os] eqn:Eo;
    [eexists; split; [reflexivity|]; split;
       [discriminate | intros (_ & N & _); contradiction]|].
  destruct (strip (entry_new g)) as [|n ns] eqn:En;
    [eexists; split; [reflexivity|]; split;
       [discriminate | intros (_ & _ & N & _); contradiction]|].
  pose proof (rename_extensions_result h (p :: ps) (o :: os) (n :: ns) w) as R.
  destruct (rename_extensions h (p :: ps) (o :: os) (n :: ns) w) as [[v|e] w'];
    simpl in R; eexists; (split; [reflexivity|]); split.
  - intros _. repeat split; try discriminate.
    destruct R as [R | [e R]]; [exact R | discriminate].
  - reflexivity.
  - discriminate.
  - intros (_ & _ & _ & X). discriminate.
Qed.

(** X11: a directory chosen in the dialog replaces whatever the path field
    held, and [run] then looks it up without the white space at its ends:
    when the stripped choice is no directory, [run] opens the error box
    "Not a directory: <stripped choice>" and the state stays as it was,
    even if the choice itself is a directory. *)
Theorem browse_then_run h strerror sel g w
    (Hsel : strip sel <> [])
    (Hold : strip (entry_old g) <> [])
    (Hnew : strip (entry_new g) <> [])
    (Hnot : isdir h w (strip sel) = false) :
  run h strerror (browse_dir sel g) w
  = (show (ShowError "Error" (lit "Not a directory: " ++ strip sel))
          (Form sel (entry_old g) (entry_new g) (boxes g)), w).
Proof.
  assert (B : browse_dir sel g = Form sel (entry_old g) (entry_new g) (boxes g)).
  { unfold browse_dir, entry_insert, entry_delete_all.
    destruct sel as [|c s]; [now destruct Hsel|].
    simpl. now rewrite app_nil_r. }
  rewrite B. now apply run_raise_not_a_directory.
Qed.

Lemma browse_then_run_witness :
  isdir linux w_blank_dir "data " = true
  /\ run linux (fun _ => []) (browse_dir "data " (Form "typed" "old" "new" []))
         w_blank_dir
     = (show (ShowError "Error" (lit "Not a directory: data"))
             (Form "data " "old" "new" []), w_blank_dir).
Proof.
  split; [reflexivity|].
  apply (@browse_then_run linux (fun _ => []) "data "
           (Form "typed" "old" "new" []) w_blank_dir);
    try discriminate; reflexivity.
Defined.

(** ** No content is lost *)

Lemma path_eqb_sym a b : path_eqb a b = path_eqb b a.
Proof.
  destruct (path_eqb a b) eqn:E.
  - apply path_eqb_eq in E. subst. symmetry. apply path_eqb_refl.
  - destruct (path_eqb b a) eqn:E'; [|reflexivity].
    apply path_eqb_eq in E'. subst. now rewrite path_eqb_refl in E.
Qed.

Lemma name_eqb_trans h a b c :
  name_eqb h a b = true -> name_eqb h b c = true -> name_eqb h a c = true.
Proof.
  unfold name_eqb. destruct (case_sensitive h); intros E1 E2;
    apply str_eqb_eq in E1, E2; apply str_eqb_eq; congruence.
Qed.

Lemma is_entry_spec h c x e :
  is_entry h c x e = true <-> f_dir e = c /\ name_eqb h (f_name e) x = true.
Proof.
  unfold is_entry. rewrite andb_true_iff, path_eqb_eq. reflexivity.
Qed.

(** Two entries for the same name of the same directory: an entry for one
    spelling is an entry for the other. *)
Lemma is_entry_same h c x y e :
  name_eqb h x y = true -> is_entry h c x e = is_entry h c y e.
Proof.
  intro N. unfold is_entry. destruct (path_eqb (f_dir e) c); [|reflexivity].
  simpl. destruct (name_eqb h (f_name e) x) eqn:E.
  - symmetry. now apply name_eqb_trans with x.
  - destruct (name_eqb h (f_name e) y) eqn:E'; [|reflexivity].
    rewrite name_eqb_sym in N.
    now rewrite (name_eqb_trans h _ _ _ E' N) in E.
Qed.

Lemma remove_entry_id h c x fl :
  (forall e, In e fl -> is_entry h c x e = false) -> remove_entry h c x fl = fl.
Proof.
  intro H. unfold remove_entry. induction fl as [|e r IH]; [reflexivity|].
  simpl. rewrite (H e (or_introl eq_refl)). simpl. f_equal.
  apply IH. intros e' I. apply H. now right.
Qed.

Lemma unique_remove h c x fl :
  unique_entries h fl -> unique_entries h (remove_entry h c x fl).
Proof.
  induction fl as [|e r IH]; simpl; [auto|]. intros [U1 U2].
  destruct (negb (is_entry h c x e)); [|now apply IH].
  simpl. split; [|now apply IH].
  intros e' I. apply in_remove_entry in I as [I _]. now apply U1.
Qed.

(** With unique entries, taking the entry [x] of [c] away takes exactly the
    file found there. *)
Lemma unique_find_remove h c x fl src :
  unique_entries h fl -> find_file h fl c x = Some src ->
  Permutation fl (src :: remove_entry h c x fl).
Proof.
  induction fl as [|e r IH]; simpl; [discriminate|]. intros [U1 U2] F.
  destruct (is_entry h c x e) eqn:E; simpl.
  - injection F as <-. apply perm_skip.
    rewrite remove_entry_id; [reflexivity|].
    intros e' I. specialize (U1 e' I).
    apply is_entry_spec in E as [Ed En].
    rewrite <- Ed. rewrite <- (is_entry_same h (f_dir e) _ _ e' En). exact U1.
  - eapply perm_trans; [apply perm_skip, IH; auto|]. apply perm_swap.
Qed.

Lemma unique_found h fl e c x :
  unique_entries h fl -> In e fl -> is_entry h c x e = true ->
  find_file h fl c x = Some e.
Proof.
  induction fl as [|a r IH]; simpl; [contradiction|]. intros [U1 U2] I E.
  destruct I as [-> | I]; [now rewrite E|].
  destruct (is_entry h c x a) eqn:Ea; [|now apply IH].
  exfalso. specialize (U1 e I).
  apply is_entry_spec in Ea as [Ad An]. apply is_entry_spec in E as [Ed En].
  assert (X : is_entry h (f_dir a) (f_name a) e = true).
  { apply is_entry_spec. split; [congruence|].
    apply name_eqb_trans with x; [exact En|]. now rewrite name_eqb_sym. }
  congruence.
Qed.

(** The three ways in which [os.rename] succeeds. *)
Lemma os_rename_ret_cases h old new w :
  fst (os_rename h old new w) = Ret tt ->
  exists c x src c' y,
    resolve h w old = Some (TName c x)
    /\ find_file h (files w) c x = Some src
    /\ resolve h w new = Some (TName c' y)
    /\ files (snd (os_rename h old new w))
       = File c' y (f_data src)
         :: remove_entry h c' y (remove_entry h c x (files w))
    /\ (find_file h (files w) c' y = None
        \/ (c = c' /\ name_eqb h x y = true)
        \/ flavour h = Posix).
Proof.
  unfold os_rename.
  change (resolve h (log_rename old new w) old) with (resolve h w old).
  change (resolve h (log_rename old new w) new) with (resolve h w new).
  change (files (log_rename old new w)) with (files w).
  destruct (resolve h w old) as [[c|c x]|] eqn:Ro; try discriminate.
  destruct (find_file h (files w) c x) as [src|] eqn:Fo; try discriminate.
  destruct (resolve h w new) as [[c'|c' y]|] eqn:Rn; try discriminate.
  destruct (find_file h (files w) c' y) eqn:Fn.
  - destruct (path_eqb c c' && name_eqb h x y) eqn:S.
    + intros _. exists c, x, src, c', y. repeat split; auto.
      right. left. apply andb_true_iff in S as [S1 S2].
      apply path_eqb_eq in S1. auto.
    + destruct (flavour h); [|discriminate].
      intros _. exists c, x, src, c', y. repeat split; auto.
  - intros _. exists c, x, src, c', y. repeat split; auto.
Qed.

(** An [os.rename] that does not replace another file keeps all contents
    and keeps the entries unique. *)
Lemma os_rename_contents h old new w :
  unique_entries h (files w) ->
  (flavour h = Posix ->
   forall c x c' y,
     resolve h w old = Some (TName c x) -> resolve h w new = Some (TName c' y) ->
     find_file h (files w) c' y = None \/ (c = c' /\ name_eqb h x y = true)) ->
  Permutation (contents (snd (os_rename h old new w))) (contents w)
  /\ unique_entries h (files (snd (os_rename h old new w))).
Proof.
  intros U Hp.
  destruct (os_rename_effect h old new w) as [[R _] | [_ F]].
  - apply os_rename_ret_cases in R.
    destruct R as (c & x & src & c' & y & Ro & Fo & Rn & E & Cs).
    assert (Free : find_file h (files w) c' y = None
                   \/ (c = c' /\ name_eqb h x y = true)).
    { destruct Cs as [C | [C | C]]; eauto. }
    assert (Clear : forall e, In e (remove_entry h c x (files w)) ->
                              is_entry h c' y e = false).
    { intros e I. apply in_remove_entry in I as [I X].
      destruct Free as [Fn | [<- N]].
      - now apply find_file_none_entry with (files w).
      - now rewrite <- (is_entry_same h c _ _ e N). }
    unfold contents. rewrite E, (remove_entry_id _ _ _ _ Clear). split.
    + simpl. symmetry.
      apply (Permutation_map f_data (unique_find_remove _ _ _ _ U Fo)).
    + simpl. split; [exact Clear | now apply unique_remove].
  - unfold contents. rewrite F. split; [reflexivity | exact U].
Qed.

Lemma exists_false_free h w new c y :
  exists_ h w new = false -> resolve h w new = Some (TName c y) ->
  find_file h (files w) c y = None.
Proof.
  unfold exists_. intros X R. rewrite R in X.
  destruct (find_file h (files w) c y); [discriminate | reflexivity].
Qed.

Lemma temp_free h old w c y :
  resolve h w (temp_path h old w) = Some (TName c y) ->
  find_file h (files w) c y = None.
Proof.
  intro R. apply resolve_name in R. rewrite temp_path_last in R. subst y.
  apply find_none_all. intros e I. unfold is_entry.
  rewrite uuid4_fresh by exact I. apply andb_false_r.
Qed.

(** After the first step of the detour nothing is left under the source
    name. *)
Lemma first_step_frees_source h old w c x :
  fst (os_rename h old (temp_path h old w) w) = Ret tt ->
  resolve h w old = Some (TName c x) ->
  find_file h (files (snd (os_rename h old (temp_path h old w) w))) c x = None.
Proof.
  intros R Ro.
  destruct (first_step_effect h old w R) as (c0 & x0 & src & ct & Ro' & Fo & _ & E).
  rewrite Ro in Ro'. injection Ro' as <- <-. rewrite E.
  apply find_none_all. intros e [<- | I].
  - unfold is_entry. simpl. rewrite (uuid4_not_source h w c x Fo).
    apply andb_false_r.
  - apply in_remove_entry in I as [I _]. now apply in_remove_entry in I as [_ X].
Qed.

Lemma safe_rename_contents h old new w :
  unique_entries h (files w) -> collides h w old new = false ->
  Permutation (contents (snd (safe_rename h old new w))) (contents w)
  /\ unique_entries h (files (snd (safe_rename h old new w))).
Proof.
  intros U C. unfold safe_rename.
  destruct (str_eqb (normcase (flavour h) old) (normcase (flavour h) new)) eqn:N.
  - fold (temp_path h old w). apply str_eqb_eq in N.
    destruct (os_rename_contents h old (temp_path h old w) w U) as [P1 U1].
    { intros _ c x c' y _ Rt. left. now apply temp_free with old. }
    rewrite bind_snd.
    destruct (fst (os_rename h old (temp_path h old w) w)) as [[]|e] eqn:R1;
      [|now split].
    destruct (os_rename_contents h (temp_path h old w) new
                (snd (os_rename h old (temp_path h old w) w)) U1) as [P2 U2].
    { intros Px c x c' y _ Rn. left.
      rewrite Px in N. simpl in N. subst new.
      rewrite resolve_after_rename in Rn.
      now apply first_step_frees_source. }
    split; [now apply perm_trans with
                  (contents (snd (os_rename h old (temp_path h old w) w)))
           | exact U2].
  - apply os_rename_contents; [exact U|].
    intros _ c x c' y _ Rn. left.
    apply collides_false in C as [C | C].
    + apply str_eqb_eq in C. congruence.
    + now apply exists_false_free with new.
Qed.

Lemma loop_body_contents h oe ne root fname w :
  unique_entries h (files w) ->
  Permutation (contents (snd (loop_body h oe ne root fname w))) (contents w)
  /\ unique_entries h (files (snd (loop_body h oe ne root fname w))).
Proof.
  intro U. unfold loop_body.
  destruct (matches oe fname); [|now split].
  destruct (collides _ _ _ _) eqn:C; [now split|].
  now apply safe_rename_contents.
Qed.

(** X12: on a file system with unique entries, a call of
    [rename_extensions] keeps the contents of all files, whether it
    finishes or raises on the way: no content is lost, replaced or
    duplicated, and the entries stay unique. *)
Theorem rename_extensions_keeps_contents h path old_ext new_ext w
    (Huniq : unique_entries h (files w)) :
  let w' := snd (rename_extensions h path old_ext new_ext w) in
  Permutation (contents w') (contents w) /\ unique_entries h (files w').
Proof.
  cbv zeta.
  set (Inv := fun w1 => Permutation (contents w1) (contents w)
                        /\ unique_entries h (files w1)).
  assert (I0 : Inv w) by (split; [reflexivity | exact Huniq]).
  change (Inv (snd (rename_extensions h path old_ext new_ext w))).
  unfold rename_extensions.
  destruct (isdir h w path); simpl; [|exact I0].
  apply bind_preserves; [|intros _ w1 H1; exact H1].
  unfold os_walk.
  destruct (resolve h w path) as [[c|c x]|]; try exact I0.
  destruct (subtree (dirs w) c) as [t|]; try exact I0.
  apply walk_preserves with (Good := fun _ => True); auto.
  intros root dn fs w1 _ H1.
  apply for_each_preserves with (P := fun _ => True); auto.
  - intros x w2 _ [P2 U2].
    destruct (loop_body_contents h (normalize_ext old_ext)
                (normalize_ext new_ext) root x w2 U2) as [P3 U3].
    split; [now apply perm_trans with (contents w2) | exact U3].
  - apply Forall_forall. auto.
Qed.

Lemma rename_extensions_keeps_contents_witness :
  let w' := snd (rename_extensions linux "root" "old" "new" w_collision) in
  Permutation (contents w') (contents w_collision)
  /\ unique_entries linux (files w').
Proof.
  apply (@rename_extensions_keeps_contents linux "root" "old" "new" w_collision).
  simpl. repeat split; intros e' I; simpl in I;
    repeat (destruct I as [<- | I]; [reflexivity|]); destruct I.
Defined.

(** ** Every selected file gets its new name *)

Lemma is_entry_sym h a b :
  is_entry h (f_dir a) (f_name a) b = is_entry h (f_dir b) (f_name b) a.
Proof. unfold is_entry. now rewrite path_eqb_sym, name_eqb_sym. Qed.

Lemma unique_eq h fl a b :
  unique_entries h fl -> In a fl -> In b fl ->
  is_entry h (f_dir a) (f_name a) b = true -> a = b.
Proof.
  induction fl as [|e r IH]; simpl; [contradiction|].
  intros [U1 U2] [-> | Ia] [-> | Ib] E; auto.
  - rewrite (U1 b Ib) in E. discriminate.
  - rewrite is_entry_sym, (U1 a Ia) in E. discriminate.
Qed.

(** In a listing of a directory with unique entries, the only spelling of
    a file's name is its own. *)
Lemma listing_spellings h w c e :
  unique_entries h (files w) -> In e (files w) -> f_dir e = c ->
  forall x, In x (listing w c) -> name_eqb h (f_name e) x = true ->
            x = f_name e.
Proof.
  intros U I D x Hx N. unfold listing in Hx.
  apply in_map_iff in Hx as (e' & <- & He'). apply filter_In in He' as [I' P'].
  apply path_eqb_eq in P'. f_equal. symmetry.
  apply (unique_eq h (files w) e e' U I I').
  apply is_entry_spec. split; [congruence | now rewrite name_eqb_sym].
Qed.

Lemma plain_app f a b : plain f (a ++ b) = plain f a && plain f b.
Proof. unfold plain. apply forallb_app. Qed.

Lemma plain_firstn f n x : plain f x = true -> plain f (firstn n x) = true.
Proof.
  intro P. rewrite <- (firstn_skipn n x), plain_app in P.
  now apply andb_true_iff in P as [P _].
Qed.

Lemma new_name_plain f oe ne fname :
  plain f fname = true -> plain f ne = true ->
  plain f (new_name_of oe ne fname) = true.
Proof.
  intros Pf Pn. unfold new_name_of, slice_to_neg. rewrite plain_app, Pn.
  destruct (length oe); [reflexivity|]. now rewrite plain_firstn.
Qed.

Lemma for_each_keeps h oe ne root fs w e :
  plain_names h w -> Forall (fun x => plain (flavour h) x = true) fs ->
  In e (files w) -> matches oe (f_name e) = false ->
  In e (files (snd (for_each fs (loop_body h oe ne root) w))).
Proof.
  intros P F I M.
  apply proj1
    with (B := plain_names h (snd (for_each fs (loop_body h oe ne root) w))).
  apply for_each_preserves
    with (Inv := fun w1 => In e (files w1) /\ plain_names h w1)
         (P := fun x => plain (flavour h) x = true); auto.
  intros x w1 Px [I1 P1]. split;
    [now apply loop_body_keeps | now apply loop_body_plain].
Qed.

Lemma walk_keeps h oe ne t c top w e :
  plain_names h w -> In e (files w) -> matches oe (f_name e) = false ->
  In e (files (snd (walk_bottom_up h (dir_body h oe ne) t c top w))).
Proof.
  intros P I M.
  apply proj1
    with (B := plain_names h
                 (snd (walk_bottom_up h (dir_body h oe ne) t c top w))).
  apply walk_preserves
    with (Inv := fun w1 => In e (files w1) /\ plain_names h w1)
         (Good := Forall (fun x => plain (flavour h) x = true)); auto.
  - intros w1 c1 [_ P1]. now apply listing_plain.
  - intros root dn fs w1 G [I1 P1]. split;
      [now apply for_each_keeps | now apply for_each_plain].
Qed.

Lemma walk_subs_plain h oe ne c top l : forall w,
  plain_names h w ->
  plain_names h (snd (walk_subs h (dir_body h oe ne) c top l w)).
Proof.
  induction l as [|[d t'] l IH]; intros w P; [exact P|].
  rewrite walk_subs_cons, bind_snd.
  pose proof (@walk_plain h oe ne t' (c ++ [d]) (join (flavour h) top d) w P).
  destruct (fst _); [now apply IH | assumption].
Qed.

Lemma walk_subs_keeps h oe ne c top l e : forall w,
  plain_names h w -> In e (files w) -> matches oe (f_name e) = false ->
  In e (files (snd (walk_subs h (dir_body h oe ne) c top l w))).
Proof.
  induction l as [|[d t'] l IH]; intros w P I M; [exact I|].
  rewrite walk_subs_cons, bind_snd.
  pose proof (@walk_keeps h oe ne t' (c ++ [d]) (join (flavour h) top d) w e P I M).
  pose proof (@walk_plain h oe ne t' (c ++ [d]) (join (flavour h) top d) w P).
  destruct (fst _); [now apply IH | assumption].
Qed.

Lemma for_each_unique h oe ne root fs w :
  unique_entries h (files w) ->
  unique_entries h (files (snd (for_each fs (loop_body h oe ne root) w))).
Proof.
  intro U.
  apply for_each_preserves
    with (Inv := fun w1 => unique_entries h (files w1)) (P := fun _ => True);
    auto.
  - intros x w1 _ U1. now apply loop_body_contents.
  - apply Forall_forall. auto.
Qed.

Lemma walk_unique h oe ne t c top w :
  unique_entries h (files w) ->
  unique_entries h (files (snd (walk_bottom_up h (dir_body h oe ne) t c top w))).
Proof.
  intro U.
  apply walk_preserves
    with (Inv := fun w1 => unique_entries h (files w1)) (Good := fun _ => True);
    auto.
  intros root dn fs w1 _ U1. now apply for_each_unique.
Qed.

Lemma walk_subs_unique h oe ne c top l : forall w,
  unique_entries h (files w) ->
  unique_entries h (files (snd (walk_subs h (dir_body h oe ne) c top l w))).
Proof.
  induction l as [|[d t'] l IH]; intros w U; [exact U|].
  rewrite walk_subs_cons, bind_snd.
  pose proof (@walk_unique h oe ne t' (c ++ [d]) (join (flavour h) top d) w U).
  destruct (fst _); [now apply IH | assumption].
Qed.

Section Complete.
Variable h : host.
Variables oe ne : str.
Hypothesis ne_lower : lower ne = ne.
Hypothesis oe_dot : startswith oe "." = true.
Hypothesis exts_unrelated : unrelated oe ne.
Hypothesis ne_plain : plain (flavour h) ne = true.

(** The new name is not selected. *)
Lemma renamed_unselected fname :
  plain (flavour h) fname = true -> matches oe fname = true ->
  matches oe (new_name_of oe ne fname) = false.
Proof.
  intros P M.
  pose proof (@new_name_not_selected h oe ne [] fname ne_lower exts_unrelated M)
    as N.
  rewrite basename_join in N; [exact N|]. now apply new_name_plain.
Qed.

(** So a selected file never takes the detour over the temporary name. *)
Lemma no_detour root fname :
  plain (flavour h) fname = true -> matches oe fname = true ->
  str_eqb (normcase (flavour h) (join (flavour h) root fname))
          (normcase (flavour h)
             (join (flavour h) root (new_name_of oe ne fname))) = false.
Proof.
  intros P M. apply str_eqb_neq. intro E. apply normcase_last in E.
  fold (basename_of h (join (flavour h) root fname)) in E.
  fold (basename_of h (join (flavour h) root (new_name_of oe ne fname))) in E.
  rewrite !basename_join in E by (auto using new_name_plain).
  pose proof (renamed_unselected fname P M) as U.
  rewrite <- (matches_lower oe _ _ E) in U. congruence.
Qed.

(** A turn of the loop on another entry leaves the file alone. *)
Lemma loop_body_frame root c fname w e :
  root <> [] -> resolve h w root = Some (TDir c) ->
  plain (flavour h) fname = true ->
  In e (files w) -> is_entry h c fname e = false ->
  In e (files (snd (loop_body h oe ne root fname w))).
Proof.
  intros N Rr P I X. unfold loop_body.
  destruct (matches oe fname) eqn:M; [|exact I].
  destruct (collides _ _ _ _) eqn:C; [exact I|].
  unfold safe_rename. rewrite (no_detour root fname P M).
  apply os_rename_keeps; [exact I | |].
  - intros c0 x0 Ro. rewrite (@resolve_join h w root fname c N P Rr) in Ro.
    apply resolve_from_one in Ro as [-> ->]. exact X.
  - intros c0 y Rn. apply collides_false in C as [C | C].
    + apply str_eqb_eq in C. rewrite (no_detour root fname P M) in C.
      discriminate.
    + now apply exists_false_entry with w (join (flavour h) root
                                            (new_name_of oe ne fname)).
Qed.

(** A silent, successful turn of the loop on a selected file gives the file
    its new name, in its directory and with its content. *)
Lemma loop_body_progress root c w e :
  root <> [] -> resolve h w root = Some (TDir c) ->
  plain (flavour h) (f_name e) = true ->
  unique_entries h (files w) ->
  In e (files w) -> f_dir e = c -> selected oe e ->
  fst (loop_body h oe ne root (f_name e) w) = Ret tt ->
  stdout (snd (loop_body h oe ne root (f_name e) w)) = stdout w ->
  In (renamed oe ne e) (files (snd (loop_body h oe ne root (f_name e) w))).
Proof.
  intros N Rr P U I D Se R S. unfold selected in Se.
  pose proof (@silent_no_collision h oe ne root (f_name e) w Se S) as C.
  unfold loop_body in R |- *. rewrite Se, C in R |- *.
  unfold safe_rename in R |- *. rewrite (no_detour root (f_name e) P Se) in R |- *.
  apply os_rename_ret in R.
  destruct R as (c0 & x0 & src & c' & y & Ro & Fo & Rn & E).
  rewrite (@resolve_join h w root (f_name e) c N P Rr) in Ro.
  apply resolve_from_one in Ro as [-> ->].
  rewrite (@resolve_join h w root (new_name_of oe ne (f_name e)) c N
             (new_name_plain _ oe ne _ P ne_plain) Rr) in Rn.
  apply resolve_from_one in Rn as [-> ->].
  assert (Fe : find_file h (files w) c (f_name e) = Some e).
  { apply unique_found; auto. apply is_entry_spec. split; [exact D|].
    apply name_eqb_refl. }
  rewrite Fe in Fo. injection Fo as <-.
  rewrite E. left. unfold renamed. now rewrite D.
Qed.

Lemma for_each_frame root c fs : forall w e,
  root <> [] -> resolve h w root = Some (TDir c) ->
  Forall (fun x => plain (flavour h) x = true) fs ->
  (forall x, In x fs -> is_entry h c x e = false) ->
  In e (files w) ->
  In e (files (snd (for_each fs (loop_body h oe ne root) w))).
Proof.
  induction fs as [|x fs IH]; intros w e N Rr P X I; [exact I|].
  simpl. rewrite bind_snd. inversion P as [|? ? Px Pfs]; subst.
  assert (I1 : In e (files (snd (loop_body h oe ne root x w)))).
  { apply loop_body_frame with c; auto. apply X. now left. }
  destruct (fst _); [|exact I1].
  apply IH; auto.
  - rewrite <- Rr. apply resolve_same_dirs, loop_body_dirs.
  - intros x' Hx'. apply X. now right.
Qed.

Lemma for_each_progress root c fs : forall w e,
  root <> [] -> resolve h w root = Some (TDir c) ->
  Forall (fun x => plain (flavour h) x = true) fs ->
  plain_names h w -> unique_entries h (files w) ->
  (forall x, In x fs -> name_eqb h (f_name e) x = true -> x = f_name e) ->
  In e (files w) -> f_dir e = c -> selected oe e -> In (f_name e) fs ->
  fst (for_each fs (loop_body h oe ne root) w) = Ret tt ->
  stdout (snd (for_each fs (loop_body h oe ne root) w)) = stdout w ->
  In (renamed oe ne e) (files (snd (for_each fs (loop_body h oe ne root) w))).
Proof.
  induction fs as [|x fs IH]; intros w e N Rr P Pw U Sp I D Se Hin R S;
    [destruct Hin|].
  simpl in R, S |- *. inversion P as [|? ? Px Pfs]; subst.
  destruct (@bind_silent h oe (loop_body h oe ne root x)
              (fun _ => for_each fs (loop_body h oe ne root)) w)
    as (R1 & S1 & R2 & S2 & E); auto.
  { apply loop_body_only_warnings, only_warnings_refl. }
  { intro w1. apply for_each_only_warnings. }
  rewrite E.
  assert (Rr1 : resolve h (snd (loop_body h oe ne root x w)) root
                = Some (TDir (f_dir e))).
  { rewrite <- Rr. apply resolve_same_dirs, loop_body_dirs. }
  destruct (str_eqb x (f_name e)) eqn:Ex.
  - apply str_eqb_eq in Ex. subst x.
    apply for_each_keeps; auto.
    + now apply loop_body_plain.
    + now apply loop_body_progress with (f_dir e).
    + simpl. now apply renamed_unselected.
  - apply str_eqb_neq in Ex.
    apply IH; auto.
    + now apply loop_body_plain.
    + now apply loop_body_contents.
    + intros x' Hx'. apply Sp. now right.
    + apply loop_body_frame with (f_dir e); auto.
      unfold is_entry.
      destruct (name_eqb h (f_name e) x) eqn:Nx; [|apply andb_false_r].
      exfalso. apply Ex. apply Sp; [now left | exact Nx].
    + destruct Hin as [Hx | Hin]; [contradiction | exact Hin].
Qed.

Lemma in_walked_dec (d : list str) (l : list (list str)) : In d l \/ ~ In d l.
Proof.
  destruct (in_dec (list_eq_dec (list_eq_dec ascii_dec)) d l); auto.
Qed.

(** A finished, silent walk: a file in a directory that was not reached is
    where it was, and a selected file in a directory that was reached has
    its new name. *)
Lemma walk_renames t : forall c top w e,
  wf_tree h t = true -> top <> [] ->
  resolve h w top = Some (TDir c) -> subtree (dirs w) c = Some t ->
  plain_names h w -> unique_entries h (files w) ->
  fst (walk_bottom_up h (dir_body h oe ne) t c top w) = Ret tt ->
  stdout (snd (walk_bottom_up h (dir_body h oe ne) t c top w)) = stdout w ->
  In e (files w) ->
  (~ In (f_dir e) (walked t c) ->
   In e (files (snd (walk_bottom_up h (dir_body h oe ne) t c top w))))
  /\ (In (f_dir e) (walked t c) -> selected oe e ->
      In (renamed oe ne e)
         (files (snd (walk_bottom_up h (dir_body h oe ne) t c top w)))).
Proof.
  induction t as [subs IH] using tree_ind'.
  intros c top w e W N Rt St P U R S I.
  rewrite walk_unfold in R, S |- *.
  destruct (@bind_silent h oe (walk_subs h (dir_body h oe ne) c top subs)
              (fun _ => dir_body h oe ne top (map fst subs) (listing w c)) w)
    as (R1 & S1 & R2 & S2 & E); auto.
  { apply walk_subs_only_warnings. }
  { intro w1. apply for_each_only_warnings. }
  rewrite E. clear E R S.
  set (wb := snd (walk_subs h (dir_body h oe ne) c top subs w)) in *.
  assert (Sub : forall l, incl l subs -> forall w1 e1,
             dirs w1 = dirs w -> plain_names h w1 ->
             unique_entries h (files w1) ->
             fst (walk_subs h (dir_body h oe ne) c top l w1) = Ret tt ->
             stdout (snd (walk_subs h (dir_body h oe ne) c top l w1)) = stdout w1 ->
             In e1 (files w1) ->
             (~ In (f_dir e1) (walked_subs c l) ->
              In e1 (files (snd (walk_subs h (dir_body h oe ne) c top l w1))))
             /\ (In (f_dir e1) (walked_subs c l) -> selected oe e1 ->
                 In (renamed oe ne e1)
                    (files (snd (walk_subs h (dir_body h oe ne) c top l w1))))).
  { clear R1 S1 R2 S2 I e. rewrite Forall_forall in IH.
    induction l as [|[d t'] l IHl]; intros Hl w1 e1 Hd P1 U1 R S I.
    - split; [intros _; exact I | intros []].
    - rewrite walk_subs_cons in R, S |- *.
      destruct (@bind_silent h oe
                  (walk_bottom_up h (dir_body h oe ne) t' (c ++ [d])
                     (join (flavour h) top d))
                  (fun _ => walk_subs h (dir_body h oe ne) c top l) w1)
        as (R1 & S1 & R2 & S2 & E); auto.
      { apply walk_only_warnings. }
      { intro w2. apply walk_subs_only_warnings. }
      rewrite E. clear E.
      assert (Hin : In (d, t') subs) by (apply Hl; now left).
      destruct (@resolve_child h w top c subs d t' N Rt St W Hin) as [Rc Sc].
      pose proof W as W'. rewrite wf_tree_unfold in W'.
      apply andb_true_iff in W' as [_ W'].
      destruct (wf_subs_in _ _ _ _ W' Hin) as [_ Wt].
      set (w2 := snd (walk_bottom_up h (dir_body h oe ne) t' (c ++ [d])
                        (join (flavour h) top d) w1)) in *.
      assert (D2 : dirs w2 = dirs w) by (unfold w2; now rewrite walk_dirs).
      assert (P2 : plain_names h w2) by (unfold w2; now apply walk_plain).
      assert (U2 : unique_entries h (files w2)) by (unfold w2; now apply walk_unique).
      destruct (IH (d, t') Hin (c ++ [d]) (join (flavour h) top d) w1 e1)
        as [Fr Pr]; auto.
      { now apply join_nonempty. }
      { rewrite <- Rc. now apply resolve_same_dirs. }
      { now rewrite Hd. }
      fold w2 in Fr, Pr.
      assert (Hl' : incl l subs) by (intros x Hx; apply Hl; now right).
      simpl. split.
      + intro X. apply (IHl Hl' w2 e1); auto.
        * apply Fr. intro Y. apply X, in_or_app. now left.
        * intro Y. apply X, in_or_app. now right.
      + intros X Se.
        destruct (in_walked_dec (f_dir e1) (walked t' (c ++ [d]))) as [Y | Y].
        * apply walk_subs_keeps; auto.
          simpl. apply renamed_unselected; [|exact Se].
          unfold plain_names in P1. rewrite Forall_forall in P1. now apply P1.
        * apply in_app_or in X as [X | X]; [contradiction|].
          apply (IHl Hl' w2 e1); auto. }
  assert (Db : dirs wb = dirs w) by apply walk_subs_dirs.
  assert (Pb : plain_names h wb) by now apply walk_subs_plain.
  assert (Ub : unique_entries h (files wb)) by now apply walk_subs_unique.
  assert (Rb : resolve h wb top = Some (TDir c)).
  { rewrite <- Rt. now apply resolve_same_dirs. }
  assert (Ps : Forall (fun x => plain (flavour h) x = true) (listing w c))
    by now apply listing_plain.
  destruct (Sub subs (incl_refl _) w e) as [Fr Pr]; auto.
  fold wb in Fr, Pr. unfold dir_body. rewrite walked_unfold. split.
  - intro X. apply for_each_frame with c; auto.
    + intros x _. unfold is_entry.
      destruct (path_eqb (f_dir e) c) eqn:Pc; [|reflexivity].
      apply path_eqb_eq in Pc. exfalso. apply X. now left.
    + apply Fr. intro Y. apply X. now right.
  - intros X Se.
    destruct (in_walked_dec (f_dir e) (walked_subs c subs)) as [Y | Y].
    + apply for_each_keeps; auto.
      simpl. apply renamed_unselected; [|exact Se].
      unfold plain_names in P. rewrite Forall_forall in P. now apply P.
    + destruct X as [X | X]; [|contradiction].
      apply for_each_progress with c; auto.
      * intros x Hx Nx. exact (@listing_spellings h w c e U I (eq_sym X) x Hx Nx).
      * now apply in_listing.
Qed.

End Complete.

(** X13: for names and extensions made of code points below 256.  On a
    well-formed file system, when the new extension has no separator in it,
    neither normalised extension ends with the other, and the call finishes
    without raising and without skipping a file, every selected file in a
    directory under the root is found afterwards in the same directory,
    with the same content, under the name lines 54-55 compute: its old name
    without its last [len(old_ext)] characters, followed by the normalised
    new extension. *)
Theorem selected_files_renamed h path old_ext new_ext w e
    (Hwf : wf_tree h (dirs w) = true)
    (Hplain : plain_names h w)
    (Huniq : unique_entries h (files w))
    (Hunrel : unrelated (normalize_ext old_ext) (normalize_ext new_ext))
    (Hnew : plain (flavour h) (normalize_ext new_ext) = true)
    (Hdone : fst (rename_extensions h path old_ext new_ext w) = Ret PyNone)
    (Hsilent :
       printed_between w (snd (rename_extensions h path old_ext new_ext w)) = [])
    (Hin : In e (files w))
    (Hunder : In (f_dir e) (reached h w path))
    (Hsel : matches (normalize_ext old_ext) (f_name e) = true) :
  In (File (f_dir e)
           (new_name_of (normalize_ext old_ext) (normalize_ext new_ext)
              (f_name e))
           (f_data e))
     (files (snd (rename_extensions h path old_ext new_ext w))).
Proof.
  set (oe := normalize_ext old_ext) in *. set (ne := normalize_ext new_ext) in *.
  unfold reached in Hunder.
  destruct (resolve h w path) as [[c|c x]|] eqn:Rp; try destruct Hunder.
  destruct (subtree (dirs w) c) as [t|] eqn:St; try destruct Hunder.
  assert (Np : path <> []) by (intros ->; discriminate Rp).
  pose proof (walk_only_warnings h oe ne t c path w) as OW.
  rewrite (@rename_extensions_walk h path old_ext new_ext w c t Rp St)
    in Hdone, Hsilent |- *.
  fold oe ne in Hdone, Hsilent |- *.
  apply bind_ret in Hdone as ([] & R1 & _ & E). rewrite E in Hsilent |- *.
  simpl in Hsilent |- *.
  pose proof (silent_stdout OW Hsilent) as S1.
  destruct (@walk_renames h oe ne (normalize_ext_lower new_ext) Hunrel Hnew
              t c path w e) as [_ Pr]; auto.
  now apply wf_subtree with c (dirs w).
Qed.

Lemma selected_files_renamed_witness :
  In (File [lit "root"; lit "a"; lit "b"] "file1.new" 1)
     (files (snd (rename_extensions linux "root" "old" "new" w_nested))).
Proof.
  apply (@selected_files_renamed linux "root" "old" "new" w_nested
           (File [lit "root"; lit "a"; lit "b"] "file1.old" 1)).
  - reflexivity.
  - unfold plain_names. simpl. repeat constructor.
  - simpl. repeat split; intros e' I; simpl in I;
      repeat (destruct I as [<- | I]; [reflexivity|]); destruct I.
  - split; reflexivity.
  - reflexivity.
  - reflexivity.
  - reflexivity.
  - simpl. auto.
  - vm_compute. auto.
  - reflexivity.
Defined.

(** ** Case and padding of an extension *)

Lemma lstrip_lower s : lstrip (lower s) = lower (lstrip s).
Proof.
  induction s as [|c s IH]; [reflexivity|].
  simpl. rewrite lower_char_space. destruct (is_space c); [exact IH | reflexivity].
Qed.

Lemma rstrip_lower s : rstrip (lower s) = lower (rstrip s).
Proof.
  unfold rstrip. now rewrite <- lower_rev, lstrip_lower, lower_rev.
Qed.

Lemma strip_lower s : strip (lower s) = lower (strip s).
Proof. unfold strip. now rewrite lstrip_lower, rstrip_lower. Qed.

(** X14: the normal form does not depend on the letter case of the input
    nor on white space around it: the lower-cased input, the stripped
    input, and any input that is the same once stripped and lower-cased,
    all have the normal form of the input itself. *)
Theorem normalize_ext_ignores_case_and_padding x :
  normalize_ext (lower x) = normalize_ext x
  /\ normalize_ext (strip x) = normalize_ext x
  /\ (forall y, lower (strip y) = lower (strip x) ->
                normalize_ext y = normalize_ext x).
Proof.
  split; [|split].
  - unfold normalize_ext. now rewrite strip_lower, lower_idem.
  - unfold normalize_ext. now rewrite strip_idem.
  - intros y E. unfold normalize_ext. now rewrite E.
Qed.
